(** * DadDeck API Python SDK: the request pipeline, retry helper and pagination helper

    A shallow embedding of [public/api/examples/dadddeck_api.py]:
    [APIError] with its predicates and [get_retry_delay], the dataclasses
    [RateLimitInfo] and [ApiResponse], [DadDeckAPI._request],
    [DadDeckAPI._parse_rate_limit_headers], [CardsAPI.list] and the two
    module-level helpers [fetch_with_retry] and [get_all_cards].

    Conventions of the embedding.
    - Python [int] is [Z]; Python [str] is [string] (header values reach the
      client decoded as latin-1, one character per byte).
    - A Python [float] is the rational it denotes, in [Q].  The arithmetic
      of [get_retry_delay], [total_seconds() * 1000], is rounded to binary64
      as in the source; the delays of [fetch_with_retry], in seconds as in
      the source, are computed exactly.
    - A [datetime] is a number of microseconds since the epoch together with
      the flag saying whether it carries a time zone.
    - Values decoded from JSON are the inductive [json]; [None] is [JNull].
    - A Python dict used as a mapping (keyword arguments, query parameters,
      the rate-limit dict of an [APIError]) is a [gmap string _]; the headers
      of a response are the case-insensitive mapping of [requests].
    - A call either returns or raises: [result A].  Effectful code threads a
      [World]: the state of everything outside the program (remote server,
      clock, the wrapped operation's own state) and the trace of the
      observable events the program caused. *)

From Stdlib Require Import ZArith QArith Qround String Ascii List Lia Lqa.
From stdpp Require Import base option list gmap strings pretty.

Set Warnings "-register-all".

Local Open Scope string_scope.
Local Open Scope list_scope.
Local Open Scope Z_scope.

(** ** Python values *)

(** What [json.loads] / [Response.json()] can return. *)
Inductive json : Type :=
| JNull
| JBool (b : bool)
| JInt (z : Z)
| JFloat (q : Q)
| JStr (s : string)
| JArr (items : list json)
| JObj (members : list (string * json)).

(** First binding of [key] in the members of an object. *)
Fixpoint assoc_get (key : string) (members : list (string * json)) : option json :=
  match members with
  | [] => None
  | (k, v) :: rest => if String.eqb k key then Some v else assoc_get key rest
  end.

(** Python truthiness, [bool(v)]. *)
Definition truthy (v : json) : bool :=
  match v with
  | JNull => false
  | JBool b => b
  | JInt z => negb (Z.eqb z 0)
  | JFloat q => negb (Qeq_bool q 0)
  | JStr s => negb (String.eqb s "")
  | JArr items => match items with [] => false | _ => true end
  | JObj members => match members with [] => false | _ => true end
  end.

(** A [datetime]: microseconds since 1970-01-01T00:00:00Z, and whether the
    object is time-zone aware. *)
Record datetime : Type := mkDatetime {
  dt_us : Z;
  dt_aware : bool
}.

(** [@dataclass class RateLimitInfo]. *)
Record RateLimitInfo : Type := mkRateLimitInfo {
  limit : Z;
  remaining : Z;
  reset_at : option datetime;
  tier : string
}.

(** A value stored in the [Dict[str, Any]] that [APIError.rate_limit] is
    annotated with: something JSON-like, or a [datetime]. *)
Inductive anyval : Type :=
| VJson (j : json)
| VDatetime (d : datetime).

(** What the attribute [APIError.rate_limit] holds at run time: [None], a dict
    (the annotated type), or the [RateLimitInfo] object that [_request]
    passes. *)
Inductive rate_limit_attr : Type :=
| RLNone
| RLDict (d : gmap string anyval)
| RLInfo (info : RateLimitInfo).

(** [class APIError(Exception)]: the attributes set by [__init__].  [code] and
    [message] hold whatever the caller passed ([_request] passes values taken
    from the decoded body). *)
Record APIError : Type := mkAPIError {
  code : json;
  message : json;
  status : option Z;
  rate_limit : rate_limit_attr;
  request_id : json
}.

(** The exceptions that occur in the modelled code. [Timeout] and
    [RequestException] are those of [requests.exceptions] ([Timeout] is a
    subclass of [RequestException]; the constructor [RequestException] stands
    for every other subclass). *)
Inductive exn : Type :=
| APIErrorExc (e : APIError)
| Timeout (msg : string)
| RequestException (msg : string)
| ValueError
| TypeError
| KeyError
| AttributeError
| OverflowError
| OSError.

(** A call returns a value or raises. *)
Inductive result (A : Type) : Type :=
| Ok (a : A)
| Raise (e : exn).
Arguments Ok {A} a.
Arguments Raise {A} e.

#[global] Instance result_ret : MRet result := fun A a => Ok a.

#[global] Instance result_bind : MBind result := fun A B k r =>
  match r with
  | Ok a => k a
  | Raise e => Raise e
  end.

(** ** Python's [float]

    A finite float is the rational it denotes.  An operation on floats yields
    the binary64 number nearest to the exact result, a halfway case going to
    the neighbour whose significand is even.  Every binary64 number is a
    multiple of [2 ^ -1074]; around a number of [k + 1] bits in that unit,
    neighbours are [2 ^ max 0 (k - 52)] units apart.  Results beyond the
    largest float (about 1.8e308) are out of the reach of the modelled code:
    the difference of two datetimes stays below 3.2e17 microseconds. *)

(** The integer nearest to [n / d], for [d > 0]; a half goes to the even
    neighbour. *)
Definition round_half_even (n d : Z) : Z :=
  let q := n / d in
  let r2 := 2 * (n mod d) in
  if r2 <? d then q
  else if d <? r2 then q + 1
  else if Z.even q then q else q + 1.

(** The number with a significand of 53 bits nearest to [n / d], for
    [n >= 0] and [d > 0]; a quotient below [2 ^ 53] is rounded to an
    integer. *)
Definition round_to_grid (n d : Z) : Z :=
  let s := Z.max 0 (Z.log2 (n / d) - 52) in
  round_half_even n (d * 2 ^ s) * 2 ^ s.

(** The nearest to [x] among the multiples of [2 ^ -g] with a significand of
    53 bits. *)
Definition nearest_float (g : Z) (x : Q) : Q :=
  Qmake (Z.sgn (Qnum x) * round_to_grid (Z.abs (Qnum x) * 2 ^ g) (Zpos (Qden x)))
        (Z.to_pos (2 ^ g)).

(** The float that an operation with the exact result [x] yields. *)
Definition binary64 (x : Q) : Q := nearest_float 1074 x.

(** [int(x)] on a float: truncation toward zero. *)
Definition int_of_float (x : Q) : Z := Z.quot (Qnum x) (Zpos (Qden x)).

(** [timedelta.total_seconds()] of a difference of [us] microseconds: the
    true quotient [us / 10 ** 6] of two integers. *)
Definition total_seconds (us : Z) : Q := binary64 (inject_Z us / 1000000).

(** ** APIError methods *)

(** [return self.code == "RATE_LIMIT_EXCEEDED"]: a non-string never equals a
    string. *)
Definition is_rate_limit_error (e : APIError) : bool :=
  match code e with
  | JStr s => String.eqb s "RATE_LIMIT_EXCEEDED"
  | _ => false
  end.

(** [return self.code == "UNAUTHORIZED"]. *)
Definition is_auth_error (e : APIError) : bool :=
  match code e with
  | JStr s => String.eqb s "UNAUTHORIZED"
  | _ => false
  end.

Definition anyval_truthy (v : anyval) : bool :=
  match v with
  | VJson j => truthy j
  | VDatetime _ => true
  end.

(** [str.replace("Z", "+00:00")]. *)
Fixpoint replace_Z (s : string) : string :=
  match s with
  | EmptyString => EmptyString
  | String c rest =>
      if Ascii.eqb c "Z"%char then "+00:00" +:+ replace_Z rest
      else String c (replace_Z rest)
  end.

Section RetryDelay.

(** [datetime.fromisoformat], a function of the Python library. *)
Variable fromisoformat : string -> result datetime.

(** [delay = reset_at - datetime.now(timezone.utc)] followed by
    [int(delay.total_seconds() * 1000)]: the difference of two aware
    datetimes, an exact number of microseconds, turned into seconds,
    multiplied by 1000 in floating point and truncated toward zero.
    Subtracting an aware datetime from a naive one raises [TypeError]. *)
Definition delay_ms_until (reset : datetime) (now_us : Z) : result Z :=
  if dt_aware reset then
    let delay := dt_us reset - now_us in
    Ok (int_of_float (binary64 (total_seconds delay * 1000)))
  else Raise TypeError.

(** [APIError.get_retry_delay], at the time [now_us] that
    [datetime.now(timezone.utc)] reads. *)
Definition get_retry_delay (e : APIError) (now_us : Z) : result Z :=
  match rate_limit e with
  | RLNone => Ok 60000
  | RLInfo _ =>
      (* the object is truthy and has no method [get] *)
      Raise AttributeError
  | RLDict d =>
      if decide (size d = 0%nat) then Ok 60000 (* an empty dict is falsy *)
      else
        match d !! "resetAt" with
        | None => Ok 60000
        | Some v =>
            if anyval_truthy v then
              reset ← match v with
                      | VDatetime dt => Ok dt
                      | VJson (JStr s) => fromisoformat (replace_Z s)
                      | VJson _ => Raise TypeError
                      end;
              delay_ms ← delay_ms_until reset now_us;
              Ok (Z.max 0 delay_ms)
            else Ok 60000
        end
  end.

End RetryDelay.

(** ** Python's [int(str)]

    For a string of latin-1 characters: optional surrounding whitespace, an
    optional sign, then decimal digits in which single underscores may
    separate digits.  Anything else raises [ValueError], and so do more
    digits than the interpreter converts (4300, unless it is configured
    otherwise). *)

(** The characters [int] skips at both ends: the ASCII white space (tab to
    carriage return, and the space) and, of the other latin-1 characters,
    the two that are white space in Unicode, U+0085 and U+00A0.  The
    separators U+001C..U+001F are not skipped. *)
Definition is_space (c : ascii) : bool :=
  let n := N_of_ascii c in
  ((9 <=? n) && (n <=? 13) || (n =? 32) || (n =? 133) || (n =? 160))%N.

Definition digit_of (c : ascii) : option Z :=
  let n := N_of_ascii c in
  if ((48 <=? n) && (n <=? 57))%N then Some (Z.of_N n - 48) else None.

Fixpoint lstrip (s : string) : string :=
  match s with
  | String c rest => if is_space c then lstrip rest else s
  | EmptyString => EmptyString
  end.

Definition strip (s : string) : string :=
  String.rev (lstrip (String.rev (lstrip s))).

(** Digits with optional single underscores between them; [prev_digit] says
    whether the previous character was a digit. *)
Fixpoint parse_digits (acc : Z) (prev_digit : bool) (s : string) : option Z :=
  match s with
  | EmptyString => if prev_digit then Some acc else None
  | String c rest =>
      match digit_of c with
      | Some d => parse_digits (acc * 10 + d) true rest
      | None =>
          if Ascii.eqb c "_"%char && prev_digit then parse_digits acc false rest
          else None
      end
  end.

(** The number of decimal digits in [s]. *)
Fixpoint count_digits (s : string) : Z :=
  match s with
  | EmptyString => 0
  | String c rest =>
      match digit_of c with Some _ => 1 | None => 0 end + count_digits rest
  end.

(** [sys.get_int_max_str_digits()], by default. *)
Definition max_str_digits : Z := 4300.

Definition int_of_str (s : string) : result Z :=
  let parsed :=
    match strip s with
    | String "-" rest => Z.opp <$> parse_digits 0 false rest
    | String "+" rest => parse_digits 0 false rest
    | body => parse_digits 0 false body
    end in
  match parsed with
  | Some z => if count_digits s <=? max_str_digits then Ok z else Raise ValueError
  | None => Raise ValueError
  end.

(** ** The mapping of a response's headers *)

(** [str.lower()] on latin-1 characters: the letters A..Z and the accented
    capitals U+00C0..U+00DE (the multiplication sign apart) move 32 places
    up. *)
Definition lower_char (c : ascii) : ascii :=
  let n := N_of_ascii c in
  if ((65 <=? n) && (n <=? 90) || (192 <=? n) && (n <=? 222) && negb (n =? 215))%N
  then ascii_of_N (n + 32) else c.

Fixpoint lower (s : string) : string :=
  match s with
  | EmptyString => EmptyString
  | String c rest => String (lower_char c) (lower rest)
  end.

(** [requests.structures.CaseInsensitiveDict], the class of
    [Response.headers]: the values are stored under the lower-cased names,
    and every access lower-cases the name it is given. *)
Record CaseInsensitiveDict : Type := mkCaseInsensitiveDict {
  _store : gmap string string
}.

(** [headers.get(name)] is [headers !! name]. *)
#[global] Instance CaseInsensitiveDict_lookup : Lookup string string CaseInsensitiveDict :=
  fun name h => _store h !! lower name.

(** [headers[name] = value] is [<[name := value]> headers]. *)
#[global] Instance CaseInsensitiveDict_insert : Insert string string CaseInsensitiveDict :=
  fun name value h => mkCaseInsensitiveDict (<[lower name := value]> (_store h)).

(** [del headers[name]], where the name is present. *)
#[global] Instance CaseInsensitiveDict_delete : Delete string CaseInsensitiveDict :=
  fun name h => mkCaseInsensitiveDict (delete (lower name) (_store h)).

#[global] Instance CaseInsensitiveDict_empty : Empty CaseInsensitiveDict :=
  mkCaseInsensitiveDict ∅.

(** ** Rate-limit headers *)

(** [datetime.fromtimestamp(ts, tz=timezone.utc)]: an aware datetime; a
    timestamp outside the years 1..9999 raises.  Which exception it is depends
    on the platform; the bounds are those of a 64-bit [time_t] with the GNU C
    library: [OverflowError] when the timestamp does not fit [time_t],
    [OSError] (errno 75) when [gmtime] fails because the year does not fit a C
    [int], and [ValueError] for any other year outside 1..9999. *)
Definition fromtimestamp_utc (ts : Z) : result datetime :=
  if (ts <? - 2 ^ 63) || (2 ^ 63 <=? ts) then Raise OverflowError
  else if (ts <? -67768040609740800) || (67768036191676799 <? ts) then Raise OSError
  else if (ts <? -62135596800) || (253402300799 <? ts) then Raise ValueError
  else Ok (mkDatetime (ts * 1000000) true).

(** [DadDeckAPI._parse_rate_limit_headers].  [headers] is the mapping of the
    response's headers, which [_request] passes as it is: the names are
    looked up whatever their case. *)
Definition _parse_rate_limit_headers (headers : CaseInsensitiveDict)
  : result (option RateLimitInfo) :=
  let limit := headers !! "X-RateLimit-Limit" in
  match limit with
  | None => Ok None
  | Some limit_str =>
      if String.eqb limit_str "" then Ok None
      else
        remaining ← match headers !! "X-RateLimit-Remaining" with
                    | None => Ok 0                 (* int(0) *)
                    | Some r => int_of_str r
                    end;
        let reset_at := headers !! "X-RateLimit-Reset" in
        let tier := default "unknown" (headers !! "X-RateLimit-Tier") in
        reset_dt ← match reset_at with
                   | None => Ok None
                   | Some r =>
                       if String.eqb r "" then Ok None
                       else
                         ts ← int_of_str r;
                         dt ← fromtimestamp_utc ts;
                         Ok (Some dt)
                   end;
        limit_int ← int_of_str limit_str;
        Ok (Some (mkRateLimitInfo limit_int remaining reset_dt tier))
  end.

(** ** The world outside the program *)

(** A request handed to [requests.Session.request]. *)
Record http_request : Type := mkRequest {
  req_method : string;
  req_url : string;
  req_params : option (gmap string json);
  req_json : option json;
  req_timeout : Z
}.

(** A [requests.Response] as the client reads it: [status_code], [headers]
    and the outcome of [json()]: the decoded body [body_json], or, for a body
    that is not valid JSON ([None]), the message [json_error] of the
    decoder's exception. *)
Record Response : Type := mkResponse {
  status_code : Z;
  headers : CaseInsensitiveDict;
  body_json : option json;
  json_error : string
}.

(** Observable events, in the order the program causes them. *)
Inductive event : Type :=
| EvInvoke                              (* fetch_with_retry calls func() *)
| EvPrint (retry_delay : Q)             (* print("Rate limited. Retrying in ...") *)
| EvSleep (seconds : Q)                 (* time.sleep(seconds) *)
| EvList (kwargs : gmap string json)    (* client.cards.list called with keywords kwargs *)
| EvHttp (req : http_request).          (* session.request(...) *)

(** The environment's own state [env] (opaque to the program) and the trace of
    events so far, oldest first. *)
Record World (Env : Type) : Type := mkWorld {
  env : Env;
  trace : list event
}.
Arguments mkWorld {Env} env trace.
Arguments env {Env} w.
Arguments trace {Env} w.

Definition emit {Env : Type} (ev : event) (w : World Env) : World Env :=
  mkWorld (env w) (trace w ++ [ev]).

(** An effectful computation: it returns or raises, and leaves a new world. *)
Definition M (Env A : Type) : Type := World Env -> result A * World Env.

(** The events of one kind in a trace. *)
Definition invocations (t : list event) : nat :=
  length (omap (λ ev, match ev with EvInvoke => Some () | _ => None end) t).

Definition sleeps (t : list event) : list Q :=
  omap (λ ev, match ev with EvSleep d => Some d | _ => None end) t.

Definition list_calls (t : list event) : list (gmap string json) :=
  omap (λ ev, match ev with EvList kw => Some kw | _ => None end) t.

Definition http_calls (t : list event) : list http_request :=
  omap (λ ev, match ev with EvHttp r => Some r | _ => None end) t.

(** ** ApiResponse and the request primitive *)

(** [@dataclass class ApiResponse]. *)
Record ApiResponse : Type := mkApiResponse {
  data : json;
  error : json;
  meta : json;
  resp_rate_limit : option RateLimitInfo
}.

(** [ApiResponse.success]: [self.error is None]. *)
Definition success (r : ApiResponse) : bool :=
  match error r with
  | JNull => true
  | _ => false
  end.

(** [requests.Response.ok]: true unless [raise_for_status()] would raise,
    which it does for the statuses 400..599. *)
Definition ok (r : Response) : bool :=
  negb ((400 <=? status_code r) && (status_code r <? 600)).

(** [requests.Response.json()]: the decoded body; since requests 2.27 an
    undecodable body raises [requests.exceptions.JSONDecodeError], a
    [RequestException] whose text is the decoder's message. *)
Definition Response_json (r : Response) : result json :=
  match body_json r with
  | Some j => Ok j
  | None => Raise (RequestException (json_error r))
  end.

(** [obj.get(key, default)]: only a dict has the method. *)
Definition py_get (obj : json) (key : string) (dflt : json) : result json :=
  match obj with
  | JObj members => Ok (default dflt (assoc_get key members))
  | _ => Raise AttributeError
  end.

(** [str.lstrip("/")] and [str.rstrip("/")]. *)
Fixpoint lstrip_slash (s : string) : string :=
  match s with
  | String c rest => if Ascii.eqb c "/"%char then lstrip_slash rest else s
  | EmptyString => EmptyString
  end.

Definition rstrip_slash (s : string) : string :=
  String.rev (lstrip_slash (String.rev s)).

(** [class DadDeckAPI]: the attributes set by [__init__]. *)
Record DadDeckAPI : Type := mkClient {
  api_key : string;
  base_url : string;
  timeout : Z
}.

(** [DadDeckAPI.__init__(api_key, base_url, timeout)]. *)
Definition DadDeckAPI_init (api_key base_url : string) (timeout : Z) : DadDeckAPI :=
  mkClient api_key (rstrip_slash base_url) timeout.

(** The argument [rate_limit=rate_limit] of the [APIError] raised by
    [_request]: the parser's result, as it is. *)
Definition rate_limit_of (rl : option RateLimitInfo) : rate_limit_attr :=
  match rl with
  | None => RLNone
  | Some info => RLInfo info
  end.

(** The body of the [try] in [_request], from the outcome of
    [self.session.request(...)] on. *)
Definition _request_try (outcome : result Response) : result ApiResponse :=
  response ← outcome;
  rate_limit ← _parse_rate_limit_headers (headers response);
  if negb (ok response) then
    error_data ← Response_json response;
    error ← py_get error_data "error" (JObj []);
    code ← py_get error "code" (JStr "API_ERROR");
    message ← py_get error "message" (JStr "Unknown error");
    meta ← py_get error_data "meta" (JObj []);
    request_id ← py_get meta "requestId" JNull;
    Raise (APIErrorExc
             (mkAPIError code message (Some (status_code response))
                         (rate_limit_of rate_limit) request_id))
  else
    response_data ← Response_json response;
    data ← py_get response_data "data" JNull;
    error ← py_get response_data "error" JNull;
    meta ← py_get response_data "meta" JNull;
    Ok (mkApiResponse data error meta rate_limit).

(** The [except] clauses of [_request], in order: [APIError] is re-raised,
    [Timeout] and any other [RequestException] become an [APIError];
    everything else propagates. *)
Definition _request_except (self : DadDeckAPI) (r : result ApiResponse)
  : result ApiResponse :=
  match r with
  | Raise (APIErrorExc e) => Raise (APIErrorExc e)
  | Raise (Timeout _) =>
      Raise (APIErrorExc
               (mkAPIError (JStr "TIMEOUT")
                  (JStr ("Request timed out after " +:+ pretty (timeout self) +:+ "s"))
                  None RLNone JNull))
  | Raise (RequestException msg) =>
      Raise (APIErrorExc (mkAPIError (JStr "NETWORK_ERROR") (JStr msg) None RLNone JNull))
  | other => other
  end.

Section Client.

Context {Env : Type}.

(** [requests.Session.request]: the exchange with the remote server. *)
Variable session_request : http_request -> Env -> result Response * Env.

(** [DadDeckAPI._request(method, endpoint, params, data)]. *)
Definition _request (self : DadDeckAPI) (method endpoint : string)
    (params : option (gmap string json)) (data : option json) : M Env ApiResponse :=
  fun w =>
    let url := base_url self +:+ "/" +:+ lstrip_slash endpoint in
    let req := mkRequest method url params data (timeout self) in
    let '(outcome, env1) := session_request req (env w) in
    (_request_except self (_request_try outcome),
     mkWorld env1 (trace w ++ [EvHttp req])).

(** [if v: params[key] = v]. *)
Definition set_if_truthy (key : string) (v : json) (params : gmap string json)
  : gmap string json :=
  if truthy v then <[key := v]> params else params.

(** [CardsAPI.list(page, page_size, rarity, type, series, search)]. *)
Definition CardsAPI_list (self : DadDeckAPI)
    (page page_size rarity type series search : json) : M Env ApiResponse :=
  let params := <["pageSize" := page_size]> (<["page" := page]> ∅) in
  let params := set_if_truthy "rarity" rarity params in
  let params := set_if_truthy "type" type params in
  let params := set_if_truthy "series" series params in
  let params := set_if_truthy "search" search params in
  _request self "GET" "/cards" (Some params) None.

(** The parameter names of [CardsAPI.list] ([self] is bound by the method
    call). *)
Definition CardsAPI_list_names : gset string :=
  {[ "page"; "page_size"; "rarity"; "type"; "series"; "search" ]}.

(** [client.cards.list] called with the keyword arguments [kwargs]: a keyword that names no parameter raises
    [TypeError] before the body runs; a parameter left out takes its
    default. *)
Definition CardsAPI_list_kwargs (self : DadDeckAPI) (kwargs : gmap string json)
  : M Env ApiResponse :=
  fun w =>
    if decide (dom kwargs ⊆ CardsAPI_list_names) then
      CardsAPI_list self
        (default (JInt 1) (kwargs !! "page"))
        (default (JInt 50) (kwargs !! "page_size"))
        (default JNull (kwargs !! "rarity"))
        (default JNull (kwargs !! "type"))
        (default JNull (kwargs !! "series"))
        (default JNull (kwargs !! "search")) w
    else (Raise TypeError, w).

End Client.

(** ** fetch_with_retry *)

(** Python's [max(a, b)] on two numbers: [b] when [b > a], else [a]. *)
Definition py_max (a b : Q) : Q :=
  if negb (Qle_bool b a) then b else a.

(** The error raised after the loop. *)
Definition max_retries_error : APIError :=
  mkAPIError (JStr "MAX_RETRIES") (JStr "Maximum retries exceeded") None RLNone JNull.

(** What the helper needs from the Python runtime: the clock read by
    [datetime.now(timezone.utc)] (microseconds since the epoch),
    [time.sleep(seconds)] and [datetime.fromisoformat].  [sleep] returns: the
    waits are taken to be within what [time.sleep] accepts (it raises above
    some 9.2e9 seconds, 292 years). *)
Record Runtime (Env : Type) : Type := mkRuntime {
  now : Env -> Z;
  sleep : Q -> Env -> Env;
  fromisoformat : string -> result datetime
}.
Arguments mkRuntime {Env} now sleep fromisoformat.
Arguments now {Env} r e.
Arguments sleep {Env} r seconds e.
Arguments fromisoformat {Env} r s.

Section Retry.

Context {Env A : Type} (rt : Runtime Env).

(** The wrapped operation [func]: it returns or raises and changes the
    environment. *)
Variable func : Env -> result A * Env.

Variable max_retries : Z.
Variable backoff_factor : Q.

(** The [for attempt in range(max_retries)] loop over the attempts still to
    run, with the current [delay]; the empty list is the loop's normal end,
    followed by [raise APIError("MAX_RETRIES", ...)]. *)
Fixpoint retry_loop (attempts : list Z) (delay : Q) (w : World Env)
  : result A * World Env :=
  match attempts with
  | [] => (Raise (APIErrorExc max_retries_error), w)
  | attempt :: rest =>
      let '(r, env1) := func (env w) in
      let w1 := mkWorld env1 (trace w ++ [EvInvoke]) in
      match r with
      | Ok v => (Ok v, w1)
      | Raise (APIErrorExc e) =>
          if is_rate_limit_error e && (attempt <? max_retries - 1) then
            match get_retry_delay (fromisoformat rt) e (now rt env1) with
            | Ok ms =>
                let retry_delay := py_max (inject_Z ms / 1000)%Q delay in
                let w2 := emit (EvPrint retry_delay) w1 in
                let w3 := mkWorld (sleep rt retry_delay (env w2))
                                  (trace w2 ++ [EvSleep retry_delay]) in
                retry_loop rest (delay * backoff_factor)%Q w3
            | Raise x => (Raise x, w1)
            end
          else (Raise (APIErrorExc e), w1)
      | Raise x => (Raise x, w1)
      end
  end.

End Retry.

(** [fetch_with_retry(func, max_retries, initial_delay, backoff_factor)];
    [range(max_retries)] is [seqZ 0 max_retries]. *)
Definition fetch_with_retry {Env A : Type} (rt : Runtime Env)
    (func : Env -> result A * Env) (max_retries : Z)
    (initial_delay backoff_factor : Q) : M Env A :=
  retry_loop rt func max_retries backoff_factor (seqZ 0 max_retries) initial_delay.

(** ** get_all_cards *)

(** [obj[key]] with a string key: [KeyError] when a dict lacks the key,
    [TypeError] when [obj] is not a dict. *)
Definition subscript (obj : json) (key : string) : result json :=
  match obj with
  | JObj members =>
      match assoc_get key members with
      | Some v => Ok v
      | None => Raise KeyError
      end
  | _ => Raise TypeError
  end.

Fixpoint chars_of (s : string) : list json :=
  match s with
  | EmptyString => []
  | String c rest => JStr (String c EmptyString) :: chars_of rest
  end.

(** The items [list.extend(v)] appends: the elements of a list, the
    characters of a string, the keys of a dict; anything else is not
    iterable. *)
Definition iterate (v : json) : result (list json) :=
  match v with
  | JArr items => Ok items
  | JStr s => Ok (chars_of s)
  | JObj members => Ok (JStr <$> remove_dups (members.*1))
  | _ => Raise TypeError
  end.

Section Pagination.

Context {Env : Type}.

(** [client.cards.list], called with keyword arguments: whatever object the
    caller passes as [client]. *)
Variable cards_list : gmap string json -> M Env ApiResponse.

(** [filters], [None] or a dict. *)
Variable filters : option (gmap string json).

(** The [while has_more] loop of [get_all_cards], entered with [has_more]
    true.  [fuel] bounds the number of iterations the model runs: [None]
    means the loop is still running after [fuel] iterations. *)
Fixpoint get_all_cards_loop (fuel : nat) (all_cards : list json) (page : Z)
    (w : World Env) : option (result (list json) * World Env) :=
  match fuel with
  | O => None
  | S fuel' =>
      let params :=
        <["pageSize" := JInt 100]> (<["page" := JInt page]> (default ∅ filters)) in
      let '(r, w1) := cards_list params (emit (EvList params) w) in
      match r with
      | Raise e => Some (Raise e, w1)
      | Ok response =>
          let step :=
            cards ← subscript (data response) "cards";
            items ← iterate cards;
            pagination ← subscript (data response) "pagination";
            has_more ← subscript pagination "hasNext";
            Ok (all_cards ++ items, has_more) in
          match step with
          | Raise e => Some (Raise e, w1)
          | Ok (all_cards', has_more) =>
              if truthy has_more
              then get_all_cards_loop fuel' all_cards' (page + 1) w1
              else Some (Ok all_cards', w1)
          end
      end
  end.

(** [get_all_cards(client, filters)], run for at most [fuel] pages. *)
Definition get_all_cards (fuel : nat) (w : World Env)
  : option (result (list json) * World Env) :=
  get_all_cards_loop fuel [] 1 w.

End Pagination.

(** ** Vocabulary of the statements *)

(** [get_retry_delay] returns on [e], whatever the time of the query. *)
Definition retry_delay_defined {Env : Type} (rt : Runtime Env) (e : APIError) : Prop :=
  ∀ t, ∃ ms, get_retry_delay (fromisoformat rt) e t = Ok ms.

(** The operation raises a rate-limit [APIError] on every invocation, one on
    which [get_retry_delay] returns. *)
Definition rate_limited_every_time {Env A : Type} (rt : Runtime Env)
    (func : Env -> result A * Env) : Prop :=
  ∀ s, ∃ e s', func s = (Raise (APIErrorExc e), s')
               ∧ is_rate_limit_error e = true
               ∧ retry_delay_defined rt e.


(** The shape of the events one run of the retry loop adds to the trace when
    it makes at least one attempt, entered with the backoff [delay]: a last
    attempt, or an attempt followed by the announcement and the wait
    [max(ms / 1000, delay)] for some retry delay [ms >= 0], then the rest with
    the backoff multiplied. *)
Inductive attempts_trace (backoff_factor : Q) : Q -> list event -> Prop :=
| at_last delay :
    attempts_trace backoff_factor delay [EvInvoke]
| at_retry delay ms rest :
    0 <= ms ->
    attempts_trace backoff_factor (delay * backoff_factor)%Q rest ->
    attempts_trace backoff_factor delay
      (EvInvoke :: EvPrint (py_max (inject_Z ms / 1000)%Q delay)
                :: EvSleep (py_max (inject_Z ms / 1000)%Q delay) :: rest).

(** ** Scenarios *)

(** A runtime whose environment is the clock alone: [sleep] advances it by the
    requested time.  No scenario stores a string under [resetAt], so
    [fromisoformat] is never reached. *)
Definition clock_runtime : Runtime Z :=
  mkRuntime (λ t, t) (λ seconds t, t + Qfloor (seconds * 1000000)) (λ _, Raise ValueError).

Definition rate_limited_error : APIError :=
  mkAPIError (JStr "RATE_LIMIT_EXCEEDED") (JStr "Too many requests") (Some 429) RLNone JNull.

Definition unauthorized_error : APIError :=
  mkAPIError (JStr "UNAUTHORIZED") (JStr "Invalid API key") (Some 401) RLNone JNull.

(** An operation that raises the rate-limit error on every call. *)
Definition always_rate_limited : Z -> result ApiResponse * Z :=
  λ t, (Raise (APIErrorExc rate_limited_error), t).

(** An operation that raises the auth error on every call. *)
Definition always_unauthorized : Z -> result ApiResponse * Z :=
  λ t, (Raise (APIErrorExc unauthorized_error), t).

Definition start : World Z := mkWorld 1700000000000000 [].

(** An effectful computation used as the operation [func] handed to
    [fetch_with_retry] (as in [lambda: client.cards.list()]): what it does to
    the environment, its own events left aside. *)
Definition as_operation {Env A : Type} (m : M Env A) : Env -> result A * Env :=
  λ s, let '(r, w) := m (mkWorld s []) in (r, env w).

(** The listing operation answers a call for page [p] with a response whose
    [data["cards"]] is the list [items p] and whose
    [data["pagination"]["hasNext"]] is truthy exactly when [has_next p]; it
    issues no listing call of its own. *)
Definition serves_pages {Env : Type}
    (cards_list : gmap string json -> M Env ApiResponse)
    (items : Z -> list json) (has_next : Z -> bool) : Prop :=
  ∀ kwargs w p, kwargs !! "page" = Some (JInt p) →
    ∃ resp w' pagination h,
      cards_list kwargs w = (Ok resp, w')
      ∧ list_calls (trace w') = list_calls (trace w)
      ∧ subscript (data resp) "cards" = Ok (JArr (items p))
      ∧ subscript (data resp) "pagination" = Ok pagination
      ∧ subscript pagination "hasNext" = Ok h
      ∧ truthy h = has_next p.

(** The keyword arguments [get_all_cards] passes for page [p]. *)
Definition page_kwargs (filters : option (gmap string json)) (p : Z) : gmap string json :=
  <["pageSize" := JInt 100]> (<["page" := JInt p]> (default ∅ filters)).

(** The client of the module's example. *)
Definition example_client : DadDeckAPI :=
  DadDeckAPI_init "ddpk_live_example_key" "https://api.dadddeck.com/v1" 30.

(** A server that answers every request with the same response. *)
Definition fixed_server {Env : Type} (r : Response)
  : http_request -> Env -> result Response * Env :=
  λ _ s, (Ok r, s).

Definition quota_headers : CaseInsensitiveDict :=
  <["X-RateLimit-Limit" := "1000"]>
    (<["X-RateLimit-Remaining" := "0"]>
       (<["X-RateLimit-Reset" := "1700000060"]>
          (<["X-RateLimit-Tier" := "free"]> ∅))).

(** A 429 answer with the documented error envelope and quota headers. *)
Definition response_429 : Response :=
  mkResponse 429 quota_headers
    (Some (JObj [("error", JObj [("code", JStr "RATE_LIMIT_EXCEEDED");
                                 ("message", JStr "Too many requests")]);
                 ("meta", JObj [("requestId", JStr "req_42")])])) "".

(** The [APIError] that [_request] raises for [response_429]. *)
Definition error_429 : APIError :=
  mkAPIError (JStr "RATE_LIMIT_EXCEEDED") (JStr "Too many requests") (Some 429)
    (RLInfo (mkRateLimitInfo 1000 0 (Some (mkDatetime 1700000060000000 true)) "free"))
    (JStr "req_42").






(** A 404 answer whose body is a JSON object without an error member. *)
Definition response_404_bare : Response := mkResponse 404 ∅ (Some (JObj [])) "".

(** Quota headers whose remaining count is not a number. *)
Definition headers_bad_remaining : CaseInsensitiveDict :=
  <["X-RateLimit-Limit" := "1000"]> (<["X-RateLimit-Remaining" := "abc"]> ∅).

(** Quota headers with the limit alone. *)
Definition headers_limit_only : CaseInsensitiveDict :=
  <["X-RateLimit-Limit" := "1000"]> ∅.

Definition card (i : Z) : json := JObj [("id", JInt i)].

(** The body of a listing answer. *)
Definition listing (items : list json) (has_next : bool) : json :=
  JObj [("cards", JArr items); ("pagination", JObj [("hasNext", JBool has_next)])].

(** A listing operation that accepts any keywords and serves the pages
    [pages]: the object a caller may pass as [client] in place of a
    [DadDeckAPI]. *)
Definition paged_list {Env : Type} (pages : Z -> list json * bool)
  : gmap string json -> M Env ApiResponse :=
  λ kwargs w,
    match kwargs !! "page" with
    | Some (JInt p) =>
        (Ok (mkApiResponse (listing (pages p).1 (pages p).2) JNull (JObj []) None), w)
    | _ => (Raise TypeError, w)
    end.

(** The same pages behind HTTP, for the real client. *)
Definition paged_server {Env : Type} (pages : Z -> list json * bool)
  : http_request -> Env -> result Response * Env :=
  λ req s,
    match req_params req ≫= (.!! "page") with
    | Some (JInt p) =>
        (Ok (mkResponse 200 ∅
               (Some (JObj [("data", listing (pages p).1 (pages p).2);
                            ("error", JNull); ("meta", JObj [])])) ""), s)
    | _ => (Ok response_404_bare, s)
    end.

(** Pages 1 and 2 hold 100 cards and announce a next page, page 3 holds 17
    cards and announces none. *)
Definition three_pages (p : Z) : list json * bool :=
  if p =? 1 then (card <$> seqZ 1 100, true)
  else if p =? 2 then (card <$> seqZ 101 100, true)
  else (card <$> seqZ 201 17, false).

(** Every page holds one card and announces a next page. *)
Definition endless_pages (p : Z) : list json * bool := ([card p], true).

Definition blank : World () := mkWorld () [].

(** The answer of the module's example, [client.cards.list(rarity="rare",
    page_size=10)]: ten cards, a next page, and the quota headers. *)
Definition response_rare_cards : Response :=
  mkResponse 200
    (<["X-RateLimit-Limit" := "1000"]>
       (<["X-RateLimit-Remaining" := "999"]>
          (<["X-RateLimit-Reset" := "1700000060"]> ∅)))
    (Some (JObj [("data", listing (card <$> seqZ 1 10) true); ("meta", JObj [])])) "".

(** An operation that returns at once. *)
Definition always_succeeds : Z -> result json * Z := λ t, (Ok (JStr "done"), t).

(** ** The other endpoint wrappers

    The methods of [CardsAPI], [PacksAPI], [CollectionsAPI], [LeaderboardAPI],
    [EventsAPI] and [AuthAPI] that build query parameters or a body, with all
    their parameters given; an identifier interpolated into the path is a
    [str]. *)

(** [class ApiTier(str, Enum)] and its [value]. *)
Inductive ApiTier : Type := FREE | BASIC | PRO | ENTERPRISE.

Definition ApiTier_value (t : ApiTier) : string :=
  match t with
  | FREE => "free"
  | BASIC => "basic"
  | PRO => "pro"
  | ENTERPRISE => "enterprise"
  end.

(** [if v: data[key] = v] on the members of a dict under construction: a new
    key goes last. *)
Definition add_if_truthy (key : string) (v : json) (members : list (string * json))
  : list (string * json) :=
  if truthy v then members ++ [(key, v)] else members.

Section Endpoints.

Context {Env : Type}.
Variable session_request : http_request -> Env -> result Response * Env.

(** [CardsAPI.random(count, rarity, type, exclude)]. *)
Definition CardsAPI_random (self : DadDeckAPI) (count rarity type exclude : json)
  : M Env ApiResponse :=
  let params := <["count" := count]> ∅ in
  let params := set_if_truthy "rarity" rarity params in
  let params := set_if_truthy "type" type params in
  let data := if truthy exclude then Some (JObj [("exclude", exclude)]) else None in
  _request session_request self "POST" "/cards/random" (Some params) data.

(** [PacksAPI.generate(pack_type, count, design, series)]. *)
Definition PacksAPI_generate (self : DadDeckAPI) (pack_type count design series : json)
  : M Env ApiResponse :=
  let data := [("packType", pack_type); ("count", count)] in
  let data := add_if_truthy "design" design data in
  let data := add_if_truthy "series" series data in
  _request session_request self "POST" "/packs/generate" None (Some (JObj data)).

(** [CollectionsAPI.get(user_id, rarity, sort_by, sort_order, page, page_size)]. *)
Definition CollectionsAPI_get (self : DadDeckAPI) (user_id : string)
    (rarity sort_by sort_order page page_size : json) : M Env ApiResponse :=
  let params :=
    <["pageSize" := page_size]>
      (<["page" := page]> (<["sortOrder" := sort_order]> (<["sortBy" := sort_by]> ∅))) in
  let params := set_if_truthy "rarity" rarity params in
  _request session_request self "GET" ("/collections/" +:+ user_id) (Some params) None.


(** [EventsAPI.list(status)]. *)
Definition EventsAPI_list (self : DadDeckAPI) (status : json) : M Env ApiResponse :=
  let params := set_if_truthy "status" status ∅ in
  _request session_request self "GET" "/events" (Some params) None.

(** [datetime.isoformat], a function of the Python library. *)
Variable isoformat : datetime -> string.

(** [AuthAPI.create_key(name, tier, expires_at, allowed_origins)]: a
    [datetime] is always truthy, a list is truthy when it is not empty. *)
Definition AuthAPI_create_key (self : DadDeckAPI) (name : string) (tier : ApiTier)
    (expires_at : option datetime) (allowed_origins : option (list string))
  : M Env ApiResponse :=
  let data := [("name", JStr name); ("tier", JStr (ApiTier_value tier))] in
  let data := match expires_at with
              | Some dt => data ++ [("expiresAt", JStr (isoformat dt))]
              | None => data
              end in
  let data := match allowed_origins with
              | Some (o :: os) => data ++ [("allowedOrigins", JArr (JStr <$> o :: os))]
              | _ => data
              end in
  _request session_request self "POST" "/auth/keys" None (Some (JObj data)).

End Endpoints.

(** ** Further vocabulary *)

(** Every query parameter of the request, the required ones apart, is truthy. *)
Definition optional_params_truthy (required : list string) (req : http_request) : Prop :=
  ∀ params key v, req_params req = Some params → params !! key = Some v →
    key ∈ required ∨ truthy v = true.

(** The transport raises no [APIError] of its own. *)
Definition plain_transport (outcome : result Response) : Prop :=
  ∀ e, outcome ≠ Raise (APIErrorExc e).

(** The operation fails with a rate-limit error, one on which
    [get_retry_delay] returns, as long as [failures_left] of the environment
    is positive, and returns once it is zero; sleeping does not change the
    count and each failure lowers it by one. *)
Definition rate_limited_then_ok {Env A : Type} (rt : Runtime Env)
    (func : Env -> result A * Env) (failures_left : Env -> nat) : Prop :=
  (∀ seconds s, failures_left (sleep rt seconds s) = failures_left s)
  ∧ (∀ s, failures_left s = 0%nat → ∃ v s', func s = (Ok v, s'))
  ∧ (∀ s n, failures_left s = S n →
       ∃ e s', func s = (Raise (APIErrorExc e), s')
               ∧ is_rate_limit_error e = true
               ∧ retry_delay_defined rt e
               ∧ failures_left s' = n).

(** The listing operation answers a call for page [p] as [serves_pages]
    describes, for the pages before [last]; what it does on [last] is left
    open. *)
Definition serves_pages_before {Env : Type} (last : Z)
    (cards_list : gmap string json -> M Env ApiResponse)
    (items : Z -> list json) : Prop :=
  ∀ kwargs w p, p < last → kwargs !! "page" = Some (JInt p) →
    ∃ resp w' pagination h,
      cards_list kwargs w = (Ok resp, w')
      ∧ subscript (data resp) "cards" = Ok (JArr (items p))
      ∧ subscript (data resp) "pagination" = Ok pagination
      ∧ subscript pagination "hasNext" = Ok h
      ∧ truthy h = true.

(** ** Further scenarios *)

(** An environment that counts the failures still to come; time stands still. *)
Definition countdown_runtime : Runtime nat :=
  mkRuntime (λ _, 1700000000000000) (λ _ n, n) (λ _, Raise ValueError).

(** An operation that is rate-limited while the count is positive. *)
Definition flaky : nat -> result json * nat :=
  λ n, match n with
       | O => (Ok (JStr "done"), O)
       | S n' => (Raise (APIErrorExc rate_limited_error), n')
       end.


(** A 200 answer whose reset header names a second too far away for the
    platform's [gmtime]. *)
Definition response_200_far_reset : Response :=
  mkResponse 200
    (<["X-RateLimit-Limit" := "1000"]> (<["X-RateLimit-Reset" := "1000000000000000000"]> ∅))
    (Some (JObj [("data", JNull)])) "".

(** A listing operation that serves [pages] before page [last] and raises
    [x] from there on. *)
Definition paged_list_failing {Env : Type} (pages : Z -> list json * bool) (last : Z)
    (x : exn) : gmap string json -> M Env ApiResponse :=
  λ kwargs w,
    match kwargs !! "page" with
    | Some (JInt p) => if p <? last then paged_list pages kwargs w else (Raise x, w)
    | _ => (Raise TypeError, w)
    end.

(** A rate-limit error carrying a dict snapshot whose reset time is five
    seconds after [start]. *)
Definition error_reset_in_5s : APIError :=
  mkAPIError (JStr "RATE_LIMIT_EXCEEDED") (JStr "Too many requests") (Some 429)
    (RLDict {[ "resetAt" := VDatetime (mkDatetime 1700000005000000 true) ]}) JNull.


(** A 429 answer with the error envelope and no quota headers. *)
Definition response_429_no_quota : Response :=
  mkResponse 429 ∅
    (Some (JObj [("error", JObj [("code", JStr "RATE_LIMIT_EXCEEDED");
                                 ("message", JStr "Too many requests")])])) "".

(** The string of [n] slashes. *)
Fixpoint slashes (n : nat) : string :=
  match n with
  | O => ""
  | S n' => String "/" (slashes n')
  end.

(** * Properties *)

(** ** Facts about rounding to binary64 *)

(** The rounded integer is within a half of the quotient, and even when it is
    exactly a half away. *)
Lemma round_half_even_spec (n d : Z) :
  0 < d →
  (2 * round_half_even n d - 1) * d <= 2 * n <= (2 * round_half_even n d + 1) * d
  ∧ (2 * n = (2 * round_half_even n d + 1) * d → Z.even (round_half_even n d) = true)
  ∧ (2 * n = (2 * round_half_even n d - 1) * d → Z.even (round_half_even n d) = true).
Proof.
  intros Hd. unfold round_half_even.
  pose proof (Z.div_mod n d ltac:(lia)) as Hn.
  pose proof (Z.mod_pos_bound n d Hd) as Hr.
  set (q := n / d) in *. set (r := n mod d) in *.
  destruct (Z.ltb_spec (2 * r) d); [split; [nia|split; intros; nia]|].
  destruct (Z.ltb_spec d (2 * r)); [split; [nia|split; intros; nia]|].
  destruct (Z.even q) eqn:Hq; [split; [nia|split; [done|intros; nia]]|].
  split; [nia|].
  assert (Z.even (q + 1) = true).
  { rewrite Z.add_1_r, Z.even_succ, <- Z.negb_even. by rewrite Hq. }
  split; intros; done.
Qed.

(** Rounding preserves the order of quotients. *)
Lemma round_half_even_mono (n1 d1 n2 d2 : Z) :
  0 < d1 → 0 < d2 → n1 * d2 <= n2 * d1 →
  round_half_even n1 d1 <= round_half_even n2 d2.
Proof.
  intros Hd1 Hd2 Hle.
  destruct (round_half_even_spec n1 d1 Hd1) as ([Hlo1 _] & _ & Hev1).
  destruct (round_half_even_spec n2 d2 Hd2) as ([_ Hhi2] & Hev2 & _).
  set (m1 := round_half_even n1 d1) in *. set (m2 := round_half_even n2 d2) in *.
  destruct (Z.le_gt_cases m1 m2) as [|Hgt]; [done|exfalso].
  assert (Hchain : (2 * m1 - 1) * (d1 * d2) <= (2 * m2 + 1) * (d1 * d2)) by nia.
  assert (Hm : m1 = m2 + 1) by nia.
  assert (Heq1 : 2 * n1 = (2 * m1 - 1) * d1) by nia.
  assert (Heq2 : 2 * n2 = (2 * m2 + 1) * d2) by nia.
  specialize (Hev1 Heq1). specialize (Hev2 Heq2).
  rewrite Hm, Z.add_1_r, Z.even_succ, <- Z.negb_even, Hev2 in Hev1. done.
Qed.

Lemma round_half_even_ge (n d c : Z) : 0 < d → c * d <= n → c <= round_half_even n d.
Proof.
  intros Hd Hc. destruct (round_half_even_spec n d Hd) as ([_ Hhi] & _). nia.
Qed.

Lemma round_half_even_le (n d c : Z) : 0 < d → n <= c * d → round_half_even n d <= c.
Proof.
  intros Hd Hc. destruct (round_half_even_spec n d Hd) as ([Hlo _] & _). nia.
Qed.


Lemma div_fraction_mono (n1 d1 n2 d2 : Z) :
  0 < d1 → 0 < d2 → n1 * d2 <= n2 * d1 → n1 / d1 <= n2 / d2.
Proof.
  intros Hd1 Hd2 Hle. apply Z.div_le_lower_bound; [done|].
  pose proof (Z.mul_div_le n1 d1 Hd1). nia.
Qed.

(** The quotient by the spacing has at most 53 bits, and exactly 53 where the
    spacing is above one unit. *)
Lemma round_to_grid_bounds (n d : Z) :
  0 <= n → 0 < d →
  let s := Z.max 0 (Z.log2 (n / d) - 52) in
  n < 2 ^ 53 * 2 ^ s * d ∧ (0 < s → 2 ^ 52 * 2 ^ s * d <= n).
Proof.
  intros Hn Hd s.
  pose proof (Z.div_mod n d ltac:(lia)) as Hdm.
  pose proof (Z.mod_pos_bound n d Hd) as Hr.
  assert (Hq : 0 <= n / d) by (apply Z.div_pos; lia).
  set (q := n / d) in *. set (l := Z.log2 q) in *.
  assert (Hl : 0 <= l) by apply Z.log2_nonneg.
  split.
  - assert (Hup : q + 1 <= 2 ^ (l + 1)).
    { destruct (Z.eq_dec q 0) as [->|Hne].
      - subst l. simpl. lia.
      - pose proof (Z.log2_spec q ltac:(lia)) as [_ Hlt]. fold l in Hlt.
        rewrite <- Z.add_1_r in Hlt. lia. }
    assert (Hpow : 2 ^ (l + 1) <= 2 ^ 53 * 2 ^ s)
      by (rewrite <- Z.pow_add_r by lia; apply Z.pow_le_mono_r; lia).
    set (X := 2 ^ 53 * 2 ^ s) in *.
    assert (d * (q + 1) <= d * X) by (apply Z.mul_le_mono_nonneg_l; lia).
    lia.
  - intros Hs. assert (Hls : l = 52 + s) by lia.
    assert (Hqpos : 0 < q).
    { destruct (Z.le_gt_cases q 0) as [Hle|]; [|done].
      pose proof (Z.log2_nonpos q Hle). lia. }
    pose proof (Z.log2_spec q Hqpos) as [Hlo _]. fold l in Hlo.
    rewrite Hls, Z.pow_add_r in Hlo by lia.
    set (X := 2 ^ 52 * 2 ^ s) in *.
    assert (d * X <= d * q) by (apply Z.mul_le_mono_nonneg_l; lia).
    lia.
Qed.

(** Rounding to 53 bits preserves the order. *)
Lemma round_to_grid_mono (n1 d1 n2 d2 : Z) :
  0 <= n1 → 0 < d1 → 0 < d2 → n1 * d2 <= n2 * d1 →
  round_to_grid n1 d1 <= round_to_grid n2 d2.
Proof.
  intros Hn1 Hd1 Hd2 Hle.
  assert (Hn2 : 0 <= n2) by nia.
  pose proof (round_to_grid_bounds n1 d1 Hn1 Hd1) as [Hup1 _].
  pose proof (round_to_grid_bounds n2 d2 Hn2 Hd2) as [_ Hlo2].
  unfold round_to_grid. cbv zeta in Hup1, Hlo2.
  assert (Hq : n1 / d1 <= n2 / d2) by by apply div_fraction_mono.
  apply Z.log2_le_mono in Hq.
  set (s1 := Z.max 0 (Z.log2 (n1 / d1) - 52)) in *.
  set (s2 := Z.max 0 (Z.log2 (n2 / d2) - 52)) in *.
  assert (Hs1 : 0 <= s1) by lia. assert (Hs : s1 <= s2) by lia.
  assert (Hp1 : 0 < 2 ^ s1) by (apply Z.pow_pos_nonneg; lia).
  assert (Hp2 : 0 < 2 ^ s2) by (apply Z.pow_pos_nonneg; lia).
  destruct (Z.eq_dec s1 s2) as [Heq|Hne].
  - rewrite <- Heq. apply Z.mul_le_mono_nonneg_r; [lia|].
    apply round_half_even_mono; nia.
  - specialize (Hlo2 ltac:(lia)).
    assert (Hpow : 2 ^ s1 * 2 <= 2 ^ s2)
      by (change 2 with (2 ^ 1) at 2; rewrite <- Z.pow_add_r by lia;
          apply Z.pow_le_mono_r; lia).
    assert (Hm1 : round_half_even n1 (d1 * 2 ^ s1) <= 2 ^ 53)
      by (apply round_half_even_le; nia).
    assert (Hm2 : 2 ^ 52 <= round_half_even n2 (d2 * 2 ^ s2))
      by (apply round_half_even_ge; nia).
    change (2 ^ 53) with (2 * 2 ^ 52) in Hm1.
    assert (0 < 2 ^ 52) by done.
    set (T := 2 ^ 52) in *. nia.
Qed.

Lemma round_to_grid_nonneg (n d : Z) : 0 <= n → 0 < d → 0 <= round_to_grid n d.
Proof.
  intros Hn Hd. unfold round_to_grid.
  set (s := Z.max 0 _).
  assert (0 < 2 ^ s) by (apply Z.pow_pos_nonneg; lia).
  apply Z.mul_nonneg_nonneg; [|lia]. apply round_half_even_ge; nia.
Qed.


Section NearestFloat.

Variable g : Z.
Hypothesis Hg : 0 <= g.

Lemma nearest_float_den (x : Q) : Zpos (Qden (nearest_float g x)) = 2 ^ g.
Proof. unfold nearest_float. simpl. apply Z2Pos.id. apply Z.pow_pos_nonneg; lia. Qed.

(** Rounding to the nearest float preserves the order. *)
Lemma nearest_float_mono (x y : Q) :
  (x <= y)%Q → Qnum (nearest_float g x) <= Qnum (nearest_float g y).
Proof.
  unfold Qle, nearest_float. cbn [Qnum].
  destruct x as [a b], y as [c d]. cbn [Qnum Qden]. intros Hle.
  assert (Hpg : 0 < 2 ^ g) by (apply Z.pow_pos_nonneg; lia).
  pose proof (round_to_grid_nonneg (Z.abs a * 2 ^ g) (Zpos b) ltac:(nia) ltac:(lia)).
  pose proof (round_to_grid_nonneg (Z.abs c * 2 ^ g) (Zpos d) ltac:(nia) ltac:(lia)).
  destruct (Z.lt_trichotomy a 0) as [Ha|[->|Ha]];
    destruct (Z.lt_trichotomy c 0) as [Hc|[->|Hc]];
    rewrite ?Z.sgn_neg, ?Z.sgn_pos, ?Z.sgn_null by done; try nia.
  - assert (round_to_grid (Z.abs c * 2 ^ g) (Zpos d)
            <= round_to_grid (Z.abs a * 2 ^ g) (Zpos b)); [|lia].
    apply round_to_grid_mono; nia.
  - assert (round_to_grid (Z.abs a * 2 ^ g) (Zpos b)
            <= round_to_grid (Z.abs c * 2 ^ g) (Zpos d)); [|lia].
    apply round_to_grid_mono; nia.
Qed.


Lemma int_of_float_nearest_mono (x y : Q) :
  (x <= y)%Q → int_of_float (nearest_float g x) <= int_of_float (nearest_float g y).
Proof.
  intros Hle. unfold int_of_float. rewrite !nearest_float_den.
  apply Z.quot_le_mono; [apply Z.pow_pos_nonneg; lia|by apply nearest_float_mono].
Qed.


Lemma nearest_float_le (x y : Q) :
  (x <= y)%Q → (nearest_float g x <= nearest_float g y)%Q.
Proof.
  intros Hle. unfold Qle. rewrite !nearest_float_den.
  apply Z.mul_le_mono_nonneg_r; [apply Z.pow_nonneg; lia|by apply nearest_float_mono].
Qed.


End NearestFloat.

(** The conversion of a time difference to whole milliseconds preserves the
    order, and is exact on whole seconds. *)
Lemma total_seconds_le (us1 us2 : Z) :
  us1 <= us2 → (total_seconds us1 <= total_seconds us2)%Q.
Proof.
  intros Hle. apply nearest_float_le; [done|].
  unfold Qle, Qdiv, Qmult, Qinv. simpl. lia.
Qed.

Lemma whole_ms_mono (us1 us2 : Z) :
  us1 <= us2 →
  int_of_float (binary64 (total_seconds us1 * 1000))
  <= int_of_float (binary64 (total_seconds us2 * 1000)).
Proof.
  intros Hle. apply int_of_float_nearest_mono; [done|].
  apply Qmult_le_compat_r; [by apply total_seconds_le|done].
Qed.


(** ** Facts about the retry delay and the retry loop *)

(** A retry delay is never negative. *)
Lemma get_retry_delay_nonneg fromiso e t ms :
  get_retry_delay fromiso e t = Ok ms → 0 <= ms.
Proof.
  unfold get_retry_delay.
  destruct (rate_limit e) as [|d|info]; [intros [= <-]; lia| |done].
  case_decide; [intros [= <-]; lia|].
  destruct (d !! "resetAt") as [v|]; [|intros [= <-]; lia].
  destruct (anyval_truthy v); [|intros [= <-]; lia].
  intros Hd.
  destruct (match v with
            | VDatetime dt => Ok dt
            | VJson (JStr s) => fromiso (replace_Z s)
            | VJson _ => Raise TypeError
            end) as [r|]; simpl in Hd; [|done].
  destruct (delay_ms_until r t); simpl in Hd; [|done].
  injection Hd as <-. lia.
Qed.

(** An empty [range]: the loop body never runs. *)
Lemma fetch_with_retry_no_attempts {Env A : Type} (rt : Runtime Env)
    (func : Env -> result A * Env) (max_retries : Z)
    (initial_delay backoff_factor : Q) (w : World Env) :
  max_retries <= 0 →
  fetch_with_retry rt func max_retries initial_delay backoff_factor w
  = (Raise (APIErrorExc max_retries_error), w).
Proof.
  intros Hn. unfold fetch_with_retry. by rewrite seqZ_nil.
Qed.

Lemma invocations_app (t1 t2 : list event) :
  invocations (t1 ++ t2) = (invocations t1 + invocations t2)%nat.
Proof. unfold invocations. by rewrite omap_app, length_app. Qed.

Lemma sleeps_app (t1 t2 : list event) : sleeps (t1 ++ t2) = sleeps t1 ++ sleeps t2.
Proof. apply omap_app. Qed.

(** Counting the invocations and the waits of a trace that was extended at
    its end. *)
Ltac count_events :=
  unfold emit; cbn [trace env];
  rewrite ?invocations_app, ?sleeps_app, ?length_app;
  unfold invocations; simpl; lia.

Section RetryFacts.

Context {Env A : Type} (rt : Runtime Env).
Variable func : Env -> result A * Env.
Variable max_retries : Z.
Variable backoff_factor : Q.

Local Abbreviation loop := (retry_loop rt func max_retries backoff_factor).


(** The events a run adds, when the attempts left are the last [n + 1] of
    [range(max_retries)]. *)
Lemma retry_loop_trace (n : nat) : ∀ attempt delay w,
  attempt + Z.of_nat (S n) = max_retries →
  ∃ seg, trace (loop (seqZ attempt (Z.of_nat (S n))) delay w).2 = trace w ++ seg
         ∧ attempts_trace backoff_factor delay seg.
Proof.
  induction n as [|n IH]; intros attempt delay w Hlen;
    rewrite seqZ_cons by lia; simpl;
    destruct (func (env w)) as [r env1]; destruct r as [v|[e| | | | | | | |]];
    try (eexists; split; [reflexivity|constructor]).
  - (* the last attempt: the guard fails *)
    destruct (Z.ltb_spec attempt (max_retries - 1)); [lia|].
    rewrite andb_false_r. eexists; split; [reflexivity|constructor].
  - destruct (is_rate_limit_error e); simpl;
      [|eexists; split; [reflexivity|constructor]].
    destruct (Z.ltb_spec attempt (max_retries - 1)); [|lia].
    destruct (get_retry_delay _ e _) as [ms|x] eqn:Hms;
      [|eexists; split; [reflexivity|constructor]].
    replace (Z.pred (Z.of_nat (S (S n)))) with (Z.of_nat (S n)) by lia.
    edestruct (IH (Z.succ attempt)) as (seg & -> & Hseg); [lia|].
    eexists; split; [|eapply at_retry; [by eapply get_retry_delay_nonneg|exact Hseg]].
    unfold emit; simpl. by rewrite <- !app_assoc.
Qed.

(** Against an operation that is rate-limited every time the loop uses up
    all the attempts left and ends on the error of the last one. *)
Lemma retry_loop_always_limited (n : nat) : ∀ attempt delay w,
  rate_limited_every_time rt func →
  attempt + Z.of_nat (S n) = max_retries →
  ∃ e s w', func s = (Raise (APIErrorExc e), env w')
    ∧ is_rate_limit_error e = true
    ∧ loop (seqZ attempt (Z.of_nat (S n))) delay w = (Raise (APIErrorExc e), w')
    ∧ invocations (trace w') = (invocations (trace w) + S n)%nat
    ∧ length (sleeps (trace w')) = (length (sleeps (trace w)) + n)%nat.
Proof.
  induction n as [|n IH]; intros attempt delay w Hfunc Hlen;
    rewrite seqZ_cons by lia; simpl;
    destruct (Hfunc (env w)) as (e & env1 & Hcall & Hrl & Hdelay);
    rewrite Hcall, Hrl; simpl.
  - destruct (Z.ltb_spec attempt (max_retries - 1)); [lia|].
    exists e, (env w), (mkWorld env1 (trace w ++ [EvInvoke])).
    repeat split; try done; count_events.
  - destruct (Z.ltb_spec attempt (max_retries - 1)); [|lia].
    destruct (Hdelay (now rt env1)) as [ms ->].
    replace (Z.pred (Z.of_nat (S (S n)))) with (Z.of_nat (S n)) by lia.
    edestruct (IH (Z.succ attempt)) as (e' & s & w' & Hlast & Hrl' & -> & Hinv & Hsl);
      [done|lia|].
    exists e', s, w'. repeat split; try done.
    + rewrite Hinv. count_events.
    + rewrite Hsl. count_events.
Qed.

End RetryFacts.



(** ** The retry helper: claims *)

(** C1 (as amended).  For every operation that raises a rate-limit error on
    every invocation (errors on which [get_retry_delay] returns),
    [fetch_with_retry] with [max_retries = 3] invokes the operation exactly
    three times, waits twice, and then re-raises the rate-limit [APIError] of
    the third invocation; the error raised is not the [MAX_RETRIES] error. *)
Theorem fetch_with_retry_three_attempts_reraise {Env A : Type} (rt : Runtime Env)
    (func : Env -> result A * Env) (initial_delay backoff_factor : Q) (w : World Env) :
  rate_limited_every_time rt func →
  ∃ e s w',
    fetch_with_retry rt func 3 initial_delay backoff_factor w
      = (Raise (APIErrorExc e), w')
    ∧ func s = (Raise (APIErrorExc e), env w')
    ∧ is_rate_limit_error e = true
    ∧ e ≠ max_retries_error
    ∧ invocations (trace w') = (invocations (trace w) + 3)%nat
    ∧ length (sleeps (trace w')) = (length (sleeps (trace w)) + 2)%nat.
Proof.
  intros Hfunc.
  destruct (retry_loop_always_limited rt func 3 backoff_factor 2 0 initial_delay w)
    as (e & s & w' & Hlast & Hrl & Hrun & Hinv & Hsl); [done|lia|].
  exists e, s, w'. repeat split; try done.
  intros ->. discriminate Hrl.
Qed.

Lemma fetch_with_retry_three_attempts_reraise_witness :
  rate_limited_every_time clock_runtime always_rate_limited
  ∧ ∃ e s w',
      fetch_with_retry clock_runtime always_rate_limited 3 1 2 start
        = (Raise (APIErrorExc e), w')
      ∧ always_rate_limited s = (Raise (APIErrorExc e), env w')
      ∧ is_rate_limit_error e = true
      ∧ e ≠ max_retries_error
      ∧ invocations (trace w') = (invocations (trace start) + 3)%nat
      ∧ length (sleeps (trace w')) = (length (sleeps (trace start)) + 2)%nat.
Proof.
  assert (H : rate_limited_every_time clock_runtime always_rate_limited).
  { intros s. exists rate_limited_error, s. repeat split.
    intros t. by exists 60000. }
  split; [exact H|].
  exact (fetch_with_retry_three_attempts_reraise clock_runtime always_rate_limited 1 2 start H).
Defined.

(** C1, counterexample.  The operation that always raises
    [RATE_LIMIT_EXCEEDED], run with [max_retries = 3], [initial_delay = 1.0],
    [backoff_factor = 2.0]: three invocations, two waits of 60 s, and the
    error raised is the rate-limit error itself, whose code is not
    [MAX_RETRIES]. *)
Lemma always_rate_limited_never_max_retries :
  rate_limited_every_time clock_runtime always_rate_limited
  ∧ (fetch_with_retry clock_runtime always_rate_limited 3 1 2 start).1
    = Raise (APIErrorExc rate_limited_error)
  ∧ code rate_limited_error ≠ code max_retries_error
  ∧ invocations (trace (fetch_with_retry clock_runtime always_rate_limited 3 1 2 start).2)
    = 3%nat
  ∧ sleeps (trace (fetch_with_retry clock_runtime always_rate_limited 3 1 2 start).2)
    = [(60000 # 1000)%Q; (60000 # 1000)%Q].
Proof.
  split; [|repeat split; try reflexivity; discriminate].
  intros s. exists rate_limited_error, s. repeat split.
  intros t. by exists 60000.
Qed.




(** C8 (as amended).  Whenever the first invocation raises an [APIError] that
    is not a rate-limit error and [max_retries >= 1], [fetch_with_retry]
    re-raises that same error at once: the run adds exactly one invocation
    and no wait to the trace. *)
Theorem fetch_with_retry_other_error_once {Env A : Type} (rt : Runtime Env)
    (func : Env -> result A * Env) (max_retries : Z)
    (initial_delay backoff_factor : Q) (w : World Env) (e : APIError) (env1 : Env) :
  func (env w) = (Raise (APIErrorExc e), env1) →
  is_rate_limit_error e = false →
  1 <= max_retries →
  fetch_with_retry rt func max_retries initial_delay backoff_factor w
  = (Raise (APIErrorExc e), mkWorld env1 (trace w ++ [EvInvoke])).
Proof.
  intros Hcall Hrl Hn. unfold fetch_with_retry.
  rewrite seqZ_cons by lia. simpl. by rewrite Hcall, Hrl.
Qed.

Lemma fetch_with_retry_other_error_once_witness :
  always_unauthorized (env start) = (Raise (APIErrorExc unauthorized_error), env start)
  ∧ is_rate_limit_error unauthorized_error = false
  ∧ 1 <= 5
  ∧ fetch_with_retry clock_runtime always_unauthorized 5 1 2 start
    = (Raise (APIErrorExc unauthorized_error), mkWorld (env start) (trace start ++ [EvInvoke])).
Proof.
  split; [reflexivity|]. split; [reflexivity|]. split; [lia|].
  apply fetch_with_retry_other_error_once; [reflexivity|reflexivity|lia].
Defined.

(** C8, counterexample.  The operation whose every invocation raises
    [UNAUTHORIZED], run with [max_retries = 0]: it is not invoked at all and
    the error raised is [MAX_RETRIES], not the operation's error. *)
Lemma unauthorized_with_zero_retries :
  always_unauthorized (env start) = (Raise (APIErrorExc unauthorized_error), env start)
  ∧ is_auth_error unauthorized_error = true
  ∧ is_rate_limit_error unauthorized_error = false
  ∧ fetch_with_retry clock_runtime always_unauthorized 0 1 2 start
    = (Raise (APIErrorExc max_retries_error), start)
  ∧ invocations (trace (fetch_with_retry clock_runtime always_unauthorized 0 1 2 start).2)
    = 0%nat.
Proof. repeat split. Qed.

(** C10.  Called with [max_retries <= 0], [fetch_with_retry] raises the
    [MAX_RETRIES] error and leaves the world as it found it: the operation is
    never invoked and nothing is slept. *)
Theorem fetch_with_retry_nonpositive_max_retries {Env A : Type} (rt : Runtime Env)
    (func : Env -> result A * Env) (max_retries : Z)
    (initial_delay backoff_factor : Q) (w : World Env) :
  max_retries <= 0 →
  let run := fetch_with_retry rt func max_retries initial_delay backoff_factor w in
  run = (Raise (APIErrorExc max_retries_error), w)
  ∧ code max_retries_error = JStr "MAX_RETRIES"
  ∧ invocations (trace run.2) = invocations (trace w)
  ∧ sleeps (trace run.2) = sleeps (trace w).
Proof.
  intros Hn run. unfold run. by rewrite fetch_with_retry_no_attempts.
Qed.

Lemma fetch_with_retry_nonpositive_max_retries_witness :
  -1 <= 0
  ∧ fetch_with_retry clock_runtime always_rate_limited (-1) 1 2 start
    = (Raise (APIErrorExc max_retries_error), start).
Proof.
  split; [lia|].
  apply (fetch_with_retry_nonpositive_max_retries clock_runtime always_rate_limited (-1) 1 2 start).
  lia.
Defined.

(** ** The rate-limit parser: claims *)

(** [int] raises nothing but [ValueError]. *)
Lemma int_of_str_raises (s : string) (x : exn) : int_of_str s = Raise x → x = ValueError.
Proof.
  unfold int_of_str.
  match goal with
  | |- match ?parsed with Some _ => _ | None => _ end = _ → _ => destruct parsed
  end; [case_match|]; by intros [=].
Qed.

(** [fromtimestamp] raises one of three exceptions, and only outside the
    years 1..9999. *)
Lemma fromtimestamp_utc_raises (ts : Z) (x : exn) :
  fromtimestamp_utc ts = Raise x →
  (x = ValueError ∨ x = OverflowError ∨ x = OSError)
  ∧ ¬ -62135596800 <= ts <= 253402300799.
Proof.
  unfold fromtimestamp_utc.
  destruct (Z.ltb_spec ts (- 2 ^ 63)); [intros [= <-]; split; [auto|lia]|].
  destruct (Z.leb_spec (2 ^ 63) ts); [intros [= <-]; split; [auto|lia]|]. simpl.
  destruct (Z.ltb_spec ts (-67768040609740800)); [intros [= <-]; split; [auto|lia]|].
  destruct (Z.ltb_spec 67768036191676799 ts); [intros [= <-]; split; [auto|lia]|]. simpl.
  destruct (Z.ltb_spec ts (-62135596800)); [intros [= <-]; split; [auto|lia]|].
  destruct (Z.ltb_spec 253402300799 ts); [intros [= <-]; split; [auto|lia]|]. done.
Qed.

(** [fromtimestamp] returns for every timestamp within the years 1..9999. *)
Lemma fromtimestamp_utc_Ok (ts : Z) :
  -62135596800 <= ts <= 253402300799 →
  fromtimestamp_utc ts = Ok (mkDatetime (ts * 1000000) true).
Proof.
  intros Hts. unfold fromtimestamp_utc.
  destruct (Z.ltb_spec ts (- 2 ^ 63)); [lia|].
  destruct (Z.leb_spec (2 ^ 63) ts); [lia|]. simpl.
  destruct (Z.ltb_spec ts (-67768040609740800)); [lia|].
  destruct (Z.ltb_spec 67768036191676799 ts); [lia|]. simpl.
  destruct (Z.ltb_spec ts (-62135596800)); [lia|].
  destruct (Z.ltb_spec 253402300799 ts); [lia|]. done.
Qed.

(** Where [fromtimestamp] returns, the timestamp is within the years 1..9999
    and the datetime is the aware one of that second. *)
Lemma fromtimestamp_utc_Ok_inv (ts : Z) (dt : datetime) :
  fromtimestamp_utc ts = Ok dt →
  -62135596800 <= ts <= 253402300799 ∧ dt = mkDatetime (ts * 1000000) true.
Proof.
  intros Hdt.
  destruct (decide (-62135596800 <= ts <= 253402300799)) as [Hin|Hout].
  - rewrite (fromtimestamp_utc_Ok ts Hin) in Hdt. by injection Hdt as <-.
  - exfalso. revert Hdt. unfold fromtimestamp_utc. repeat case_match; try done.
    intros _. apply Hout. lia.
Qed.

Lemma result_bind_Ok {A B : Type} (r : result A) (k : A -> result B) (b : B) :
  r ≫= k = Ok b → ∃ a, r = Ok a ∧ k a = Ok b.
Proof. destruct r as [a|x]; [by exists a|done]. Qed.

Lemma parse_rate_limit_headers_Some (headers : CaseInsensitiveDict) (info : RateLimitInfo) :
  _parse_rate_limit_headers headers = Ok (Some info) →
  ∃ l, headers !! "X-RateLimit-Limit" = Some l
       ∧ int_of_str l = Ok (limit info)
       ∧ match headers !! "X-RateLimit-Remaining" with
         | None => Ok 0
         | Some r => int_of_str r
         end = Ok (remaining info)
       ∧ tier info = default "unknown" (headers !! "X-RateLimit-Tier").
Proof.
  unfold _parse_rate_limit_headers.
  destruct (headers !! "X-RateLimit-Limit") as [l|]; [|done].
  destruct (String.eqb l ""); [done|]. intros Hparse.
  apply result_bind_Ok in Hparse as (rem & Hrem & Hparse).
  apply result_bind_Ok in Hparse as (reset_dt & _ & Hparse).
  apply result_bind_Ok in Hparse as (n & Hn & Hparse).
  injection Hparse as <-. by exists l.
Qed.

(** C4 (as amended).  Without an [X-RateLimit-Limit] header, or with an
    empty one, the parser returns nothing, and raises nothing.  With a limit
    that parses, a remaining count that is missing or parses, and a reset
    time that is missing, empty or a second within the years 1..9999, it
    returns a [RateLimitInfo]: [remaining] is 0 if [X-RateLimit-Remaining] is
    missing and otherwise the integer the header parses to, and [tier] is
    ["unknown"] if [X-RateLimit-Tier] is absent; a [RateLimitInfo] it returns
    never has another [remaining] or [tier].  A present
    [X-RateLimit-Remaining] that does not parse raises [ValueError]: there is
    no default for it. *)
Theorem parse_rate_limit_headers_defaults (headers : CaseInsensitiveDict) :
  (headers !! "X-RateLimit-Limit" = None ∨ headers !! "X-RateLimit-Limit" = Some "" →
     _parse_rate_limit_headers headers = Ok None)
  ∧ (∀ l n rem reset,
       headers !! "X-RateLimit-Limit" = Some l → l ≠ "" → int_of_str l = Ok n →
       (headers !! "X-RateLimit-Remaining" = None ∧ rem = 0
        ∨ ∃ r, headers !! "X-RateLimit-Remaining" = Some r ∧ int_of_str r = Ok rem) →
       (headers !! "X-RateLimit-Reset" = None ∧ reset = None
        ∨ headers !! "X-RateLimit-Reset" = Some "" ∧ reset = None
        ∨ ∃ r ts, headers !! "X-RateLimit-Reset" = Some r ∧ r ≠ ""
                  ∧ int_of_str r = Ok ts
                  ∧ -62135596800 <= ts <= 253402300799
                  ∧ reset = Some (mkDatetime (ts * 1000000) true)) →
       _parse_rate_limit_headers headers
       = Ok (Some (mkRateLimitInfo n rem reset
                     (default "unknown" (headers !! "X-RateLimit-Tier")))))
  ∧ (∀ info, _parse_rate_limit_headers headers = Ok (Some info) →
       (headers !! "X-RateLimit-Remaining" = None → remaining info = 0)
       ∧ (∀ r, headers !! "X-RateLimit-Remaining" = Some r →
               int_of_str r = Ok (remaining info))
       ∧ (headers !! "X-RateLimit-Tier" = None → tier info = "unknown"))
  ∧ (∀ l r x, headers !! "X-RateLimit-Limit" = Some l → l ≠ "" →
       headers !! "X-RateLimit-Remaining" = Some r →
       int_of_str r = Raise x →
       _parse_rate_limit_headers headers = Raise ValueError).
Proof.
  split; [|split; [|split]].
  - unfold _parse_rate_limit_headers. by intros [-> | ->].
  - unfold _parse_rate_limit_headers. intros l n rem reset -> Hl Hn Hrem Hreset.
    apply String.eqb_neq in Hl. rewrite Hl.
    assert (match headers !! "X-RateLimit-Remaining" with
            | None => Ok 0
            | Some r => int_of_str r
            end = Ok rem) as ->.
    { by destruct Hrem as [[-> ->]|(r & -> & Hr)]. }
    simpl.
    assert (match headers !! "X-RateLimit-Reset" with
            | None => Ok None
            | Some r =>
                if String.eqb r "" then Ok None
                else ts ← int_of_str r; dt ← fromtimestamp_utc ts; Ok (Some dt)
            end = Ok reset) as ->.
    { destruct Hreset as [[-> ->]|[[-> ->]|(r & ts & -> & Hr & Hts & Hrange & ->)]];
        [done|done|].
      apply String.eqb_neq in Hr. rewrite Hr, Hts. simpl.
      by rewrite (fromtimestamp_utc_Ok ts Hrange). }
    simpl. by rewrite Hn.
  - intros info (l & _ & _ & Hrem & Htier)%parse_rate_limit_headers_Some.
    split; [|split].
    + intros Hnone. rewrite Hnone in Hrem. by injection Hrem.
    + intros r Hsome. by rewrite Hsome in Hrem.
    + intros Hnone. by rewrite Htier, Hnone.
  - unfold _parse_rate_limit_headers. intros l r x -> Hl -> Hr.
    apply String.eqb_neq in Hl. rewrite Hl. simpl.
    rewrite Hr. simpl. by rewrite (int_of_str_raises r x Hr).
Qed.

Lemma parse_rate_limit_headers_defaults_witness :
  (headers response_rare_cards !! "X-RateLimit-Limit" = Some "1000"
   ∧ headers response_rare_cards !! "X-RateLimit-Remaining" = Some "999"
   ∧ headers response_rare_cards !! "X-RateLimit-Reset" = Some "1700000060"
   ∧ headers response_rare_cards !! "X-RateLimit-Tier" = None
   ∧ _parse_rate_limit_headers (headers response_rare_cards)
     = Ok (Some (mkRateLimitInfo 1000 999 (Some (mkDatetime (1700000060 * 1000000) true))
                   "unknown")))
  ∧ (headers_limit_only !! "X-RateLimit-Limit" = Some "1000"
     ∧ headers_limit_only !! "X-RateLimit-Remaining" = None
     ∧ headers_limit_only !! "X-RateLimit-Reset" = None
     ∧ _parse_rate_limit_headers headers_limit_only
       = Ok (Some (mkRateLimitInfo 1000 0 None "unknown"))).
Proof.
  split.
  - split; [reflexivity|]. split; [reflexivity|]. split; [reflexivity|].
    split; [reflexivity|].
    apply (proj1 (proj2 (parse_rate_limit_headers_defaults (headers response_rare_cards)))
             "1000" 1000 999 (Some (mkDatetime (1700000060 * 1000000) true)));
      [reflexivity|discriminate|reflexivity| |].
    + right. exists "999". split; reflexivity.
    + right. right. exists "1700000060", 1700000060.
      split; [reflexivity|]. split; [discriminate|]. split; [reflexivity|].
      split; [lia|reflexivity].
  - split; [reflexivity|]. split; [reflexivity|]. split; [reflexivity|].
    apply (proj1 (proj2 (parse_rate_limit_headers_defaults headers_limit_only))
             "1000" 1000 0 None);
      [reflexivity|discriminate|reflexivity| |].
    + left. split; reflexivity.
    + left. split; reflexivity.
Defined.

(** C4, counterexample.  With [X-RateLimit-Limit: 1000] and
    [X-RateLimit-Remaining: abc] the parser raises [ValueError]; it returns no
    [RateLimitInfo] with [remaining = 0]. *)
Lemma parse_rate_limit_headers_bad_remaining :
  headers_bad_remaining !! "X-RateLimit-Limit" = Some "1000"
  ∧ headers_bad_remaining !! "X-RateLimit-Remaining" = Some "abc"
  ∧ int_of_str "abc" = Raise ValueError
  ∧ _parse_rate_limit_headers headers_bad_remaining = Raise ValueError.
Proof. repeat split. Qed.

(** ** The request primitive: claims *)

Section RequestFacts.

Context {Env : Type}.
Variable session_request : http_request -> Env -> result Response * Env.
Variable self : DadDeckAPI.
Variables method endpoint : string.
Variable params : option (gmap string json).
Variable body : option json.

Local Abbreviation the_request :=
  (mkRequest method (base_url self +:+ "/" +:+ lstrip_slash endpoint) params body
             (timeout self)).





Lemma ok_of_2xx response : 200 <= status_code response <= 299 → ok response = true.
Proof. unfold ok. intros. destruct (Z.leb_spec 400 (status_code response)); [lia|done]. Qed.

Lemma not_ok_of_4xx_5xx response :
  400 <= status_code response <= 599 → ok response = false.
Proof.
  unfold ok. intros.
  destruct (Z.leb_spec 400 (status_code response)); [|lia].
  destruct (Z.ltb_spec (status_code response) 600); [done|lia].
Qed.

Create HintDb http_status.
#[local] Hint Resolve ok_of_2xx not_ok_of_4xx_5xx : http_status.



End RequestFacts.





(** ** The retry delay: claims *)

(** C7, the code at the failing input.  The [APIError] that [_request] raises
    for a 429 answer with quota headers carries the parser's [RateLimitInfo]
    object; on it, and on every error that carries such an object,
    [get_retry_delay] raises [AttributeError] whatever the time, and
    [fetch_with_retry] around such a call stops with that [AttributeError]
    after one invocation and no wait. *)
Theorem get_retry_delay_on_rate_limit_info :
  (_request (fixed_server response_429) example_client "GET" "/cards" None None start).1
  = Raise (APIErrorExc error_429)
  ∧ is_rate_limit_error error_429 = true
  ∧ (∀ fromiso c m s info rid now_us,
       get_retry_delay fromiso (mkAPIError c m s (RLInfo info) rid) now_us
       = Raise AttributeError)
  ∧ fetch_with_retry clock_runtime
      (as_operation (CardsAPI_list_kwargs (fixed_server response_429) example_client ∅))
      3 1 2 start
    = (Raise AttributeError, mkWorld (env start) [EvInvoke]).
Proof. repeat split. Qed.



(** ** The pagination helper: claims *)

Lemma list_calls_app (t1 t2 : list event) :
  list_calls (t1 ++ t2) = list_calls t1 ++ list_calls t2.
Proof. apply omap_app. Qed.

Lemma page_kwargs_page filters p : page_kwargs filters p !! "page" = Some (JInt p).
Proof. unfold page_kwargs. by rewrite lookup_insert_ne, lookup_insert_eq. Qed.

Lemma page_kwargs_not_accepted filters p :
  ¬ dom (page_kwargs filters p) ⊆ CardsAPI_list_names.
Proof.
  intros Hsub. assert (Hin : "pageSize" ∈ CardsAPI_list_names).
  { apply Hsub. unfold page_kwargs. rewrite dom_insert_L. set_solver. }
  unfold CardsAPI_list_names in Hin. set_unfold in Hin. intuition discriminate.
Qed.

Section PaginationFacts.

Context {Env : Type}.
Variable cards_list : gmap string json -> M Env ApiResponse.
Variable filters : option (gmap string json).
Variable items : Z -> list json.
Variable has_next : Z -> bool.
Hypothesis Hserves : serves_pages cards_list items has_next.

Local Abbreviation loop := (get_all_cards_loop cards_list filters).

(** One iteration against a listing operation that serves pages. *)
Lemma get_all_cards_loop_page fuel acc p w :
  ∃ w', list_calls (trace w') = list_calls (trace w) ++ [page_kwargs filters p]
    ∧ loop (S fuel) acc p w
      = if has_next p then loop fuel (acc ++ items p) (p + 1) w'
        else Some (Ok (acc ++ items p), w').
Proof.
  destruct (Hserves (page_kwargs filters p) (emit (EvList (page_kwargs filters p)) w) p)
    as (resp & w' & pagination & h & Hcall & Hcalls & Hcards & Hpag & Hh & Htruthy);
    [apply page_kwargs_page|].
  exists w'. split.
  - rewrite Hcalls. unfold emit. cbn [trace]. by rewrite list_calls_app.
  - cbn [get_all_cards_loop]. fold (page_kwargs filters p). rewrite Hcall.
    rewrite Hcards. simpl. rewrite Hpag. simpl. rewrite Hh. simpl.
    by rewrite Htruthy.
Qed.

(** While every page announces a next one the loop keeps running. *)
Lemma get_all_cards_loop_running fuel : ∀ acc p w,
  (∀ i, p <= i < p + Z.of_nat fuel → has_next i = true) →
  loop fuel acc p w = None.
Proof.
  induction fuel as [|fuel IH]; intros acc p w Hmore; [done|].
  destruct (get_all_cards_loop_page fuel acc p w) as (w' & _ & ->).
  rewrite Hmore by lia. apply IH. intros i Hi. apply Hmore. lia.
Qed.

(** The loop ends on the first page that announces no next one, returning
    the pages in order. *)
Lemma get_all_cards_loop_done (k : nat) : ∀ fuel acc p w,
  (∀ i, p <= i < p + Z.of_nat k → has_next i = true) →
  has_next (p + Z.of_nat k) = false →
  (k < fuel)%nat →
  ∃ w', loop fuel acc p w
        = Some (Ok (acc ++ concat (items <$> seqZ p (Z.of_nat k + 1))), w')
    ∧ list_calls (trace w')
      = list_calls (trace w) ++ (page_kwargs filters <$> seqZ p (Z.of_nat k + 1)).
Proof.
  induction k as [|k IH]; intros fuel acc p w Hmore Hlast Hfuel;
    (destruct fuel as [|fuel]; [lia|]);
    destruct (get_all_cards_loop_page fuel acc p w) as (w1 & Hcalls & ->);
    rewrite seqZ_cons by lia.
  - replace (p + Z.of_nat 0) with p in Hlast by lia. rewrite Hlast.
    exists w1. rewrite seqZ_nil by lia. simpl. by rewrite app_nil_r.
  - rewrite Hmore by lia.
    destruct (IH fuel (acc ++ items p) (p + 1) w1) as (w' & -> & Hcalls');
      [intros i Hi; apply Hmore; lia
      |by replace (p + 1 + Z.of_nat k) with (p + Z.of_nat (S k)) by lia
      |lia|].
    exists w'.
    replace (Z.pred (Z.of_nat (S k) + 1)) with (Z.of_nat k + 1) by lia.
    replace (Z.succ p) with (p + 1) by lia.
    split; [by rewrite <- app_assoc|].
    rewrite Hcalls', Hcalls. by rewrite <- app_assoc.
Qed.

End PaginationFacts.

Lemma paged_list_serves {Env : Type} (pages : Z -> list json * bool) :
  serves_pages (paged_list (Env:=Env) pages) (λ p, (pages p).1) (λ p, (pages p).2).
Proof.
  intros kwargs w p Hpage. unfold paged_list. rewrite Hpage.
  eexists _, w, _, _. repeat split.
Qed.

(** C2 (as amended).  Against a listing operation that serves pages,
    [get_all_cards] stops as soon as a page reports no next page: if page
    [k + 1] is the first such page, the loop is still running after [k]
    iterations and returns after [k + 1], with the items of pages
    [1..k+1] in order and one listing call per page.  There is no maximum
    page count: while every page reports a next one, the loop is still running
    after any number of iterations. *)
Theorem get_all_cards_stops_only_on_last_page {Env : Type}
    (cards_list : gmap string json -> M Env ApiResponse)
    (filters : option (gmap string json))
    (items : Z -> list json) (has_next : Z -> bool) (w : World Env) :
  serves_pages cards_list items has_next →
  (∀ k : nat,
     (∀ p, 1 <= p <= Z.of_nat k → has_next p = true) →
     has_next (Z.of_nat k + 1) = false →
     (∀ fuel, (fuel <= k)%nat → get_all_cards cards_list filters fuel w = None)
     ∧ (∀ fuel, (k < fuel)%nat →
          ∃ w', get_all_cards cards_list filters fuel w
                = Some (Ok (concat (items <$> seqZ 1 (Z.of_nat k + 1))), w')
            ∧ list_calls (trace w')
              = list_calls (trace w) ++ (page_kwargs filters <$> seqZ 1 (Z.of_nat k + 1))))
  ∧ ((∀ p, 1 <= p → has_next p = true) →
     ∀ fuel, get_all_cards cards_list filters fuel w = None).
Proof.
  intros Hserves. unfold get_all_cards. split.
  - intros k Hmore Hlast. split.
    + intros fuel Hfuel.
      apply (get_all_cards_loop_running cards_list filters items has_next Hserves).
      intros i Hi. apply Hmore. lia.
    + intros fuel Hfuel.
      destruct (get_all_cards_loop_done cards_list filters items has_next Hserves
                  k fuel [] 1 w) as (w' & Hrun & Hcalls);
        [intros i Hi; apply Hmore; lia
        |by replace (1 + Z.of_nat k) with (Z.of_nat k + 1) by lia
        |done|].
      by exists w'.
  - intros Hmore fuel.
    apply (get_all_cards_loop_running cards_list filters items has_next Hserves).
    intros i Hi. apply Hmore. lia.
Qed.

Lemma get_all_cards_stops_only_on_last_page_witness :
  serves_pages (paged_list (Env:=()) three_pages) (λ p, (three_pages p).1)
               (λ p, (three_pages p).2)
  ∧ (∀ p, 1 <= p <= Z.of_nat 2 → (three_pages p).2 = true)
  ∧ (three_pages (Z.of_nat 2 + 1)).2 = false
  ∧ get_all_cards (paged_list three_pages) None 2 blank = None
  ∧ ∃ w', get_all_cards (paged_list three_pages) None 3 blank
          = Some (Ok (concat ((λ p, (three_pages p).1) <$> seqZ 1 (Z.of_nat 2 + 1))), w')
      ∧ list_calls (trace w')
        = list_calls (trace blank) ++ (page_kwargs None <$> seqZ 1 (Z.of_nat 2 + 1)).
Proof.
  assert (Hmore : ∀ p, 1 <= p <= Z.of_nat 2 → (three_pages p).2 = true).
  { intros p Hp. assert (p = 1 ∨ p = 2) as [-> | ->] by lia; reflexivity. }
  split; [apply paged_list_serves|]. split; [exact Hmore|]. split; [reflexivity|].
  pose proof (proj1 (get_all_cards_stops_only_on_last_page (paged_list three_pages) None
                       (λ p, (three_pages p).1) (λ p, (three_pages p).2) blank
                       (paged_list_serves three_pages)) 2%nat Hmore eq_refl) as [Hrun Hdone].
  split; [apply Hrun; lia|apply Hdone; lia].
Defined.

(** C2, counterexample.  A listing operation whose every page reports
    [hasNext = true]: whatever number of iterations is allowed,
    [get_all_cards] has not returned; after 1000 pages it is still asking. *)
Lemma get_all_cards_endless_pages :
  serves_pages (paged_list (Env:=()) endless_pages) (λ p, [card p]) (λ _, true)
  ∧ (∀ fuel, get_all_cards (paged_list endless_pages) None fuel blank = None)
  ∧ get_all_cards (paged_list endless_pages) None 1000 blank = None.
Proof.
  assert (Hserves : serves_pages (paged_list (Env:=()) endless_pages)
                      (λ p, [card p]) (λ _, true))
    by apply (paged_list_serves endless_pages).
  assert (Hrun : ∀ fuel, get_all_cards (paged_list endless_pages) None fuel blank = None).
  { intros fuel. unfold get_all_cards.
    by apply (get_all_cards_loop_running _ _ _ _ Hserves). }
  split; [exact Hserves|]. split; [exact Hrun|apply Hrun].
Qed.

(** C9, the code at the failing input.  With the client of this module,
    whatever the server and the filters, the first iteration of
    [get_all_cards] calls [client.cards.list] with the keyword [pageSize],
    which is no parameter of [CardsAPI.list]: the call raises [TypeError]
    before any request is sent.  Against a server holding the three pages of
    100, 100 and 17 cards nothing is fetched. *)
Theorem get_all_cards_real_client_type_error :
  (∀ (Env : Type) (session_request : http_request -> Env -> result Response * Env)
     (self : DadDeckAPI) (filters : option (gmap string json)) (fuel : nat) (w : World Env),
     get_all_cards (CardsAPI_list_kwargs session_request self) filters (S fuel) w
     = Some (Raise TypeError, emit (EvList (page_kwargs filters 1)) w))
  ∧ (get_all_cards (CardsAPI_list_kwargs (paged_server three_pages) example_client) None 5 blank
     = Some (Raise TypeError, mkWorld () [EvList (page_kwargs None 1)]))
  ∧ http_calls [EvList (page_kwargs None 1)] = [].
Proof.
  assert (Hgen : ∀ (Env : Type) (session_request : http_request -> Env -> result Response * Env)
     (self : DadDeckAPI) (filters : option (gmap string json)) (fuel : nat) (w : World Env),
     get_all_cards (CardsAPI_list_kwargs session_request self) filters (S fuel) w
     = Some (Raise TypeError, emit (EvList (page_kwargs filters 1)) w)).
  { intros. unfold get_all_cards. cbn [get_all_cards_loop].
    fold (page_kwargs filters 1). unfold CardsAPI_list_kwargs.
    by destruct (decide (dom (page_kwargs filters 1) ⊆ CardsAPI_list_names))
      as [Hsub%page_kwargs_not_accepted|_]. }
  split; [exact Hgen|]. split; [apply Hgen|reflexivity].
Qed.

(** The three-page scenario against a listing operation that accepts the
    keywords [get_all_cards] passes: three calls, for pages 1, 2 and 3 with
    [pageSize = 100] and the caller's filters, and the 217 cards in page
    order. *)
Theorem get_all_cards_three_pages {Env : Type} (filters : option (gmap string json))
    (w : World Env) :
  ∃ w', get_all_cards (paged_list three_pages) filters 3 w
        = Some (Ok (card <$> seqZ 1 217), w')
    ∧ length (card <$> seqZ 1 217) = 217%nat
    ∧ list_calls (trace w')
      = list_calls (trace w)
        ++ [page_kwargs filters 1; page_kwargs filters 2; page_kwargs filters 3]
    ∧ (∀ p, page_kwargs filters p !! "pageSize" = Some (JInt 100)
            ∧ page_kwargs filters p !! "page" = Some (JInt p)
            ∧ ∀ key, key ≠ "page" → key ≠ "pageSize" →
                     page_kwargs filters p !! key = default ∅ filters !! key).
Proof.
  destruct (get_all_cards_loop_done (paged_list three_pages) filters
              (λ p, (three_pages p).1) (λ p, (three_pages p).2)
              (paged_list_serves three_pages) 2 3 [] 1 w) as (w' & Hrun & Hcalls).
  { intros p Hp. assert (p = 1 ∨ p = 2) as [-> | ->] by lia; reflexivity. }
  { reflexivity. }
  { lia. }
  exists w'. split; [exact Hrun|]. split; [reflexivity|]. split; [exact Hcalls|].
  intros p. unfold page_kwargs. split; [by rewrite lookup_insert_eq|].
  split; [by rewrite lookup_insert_ne, lookup_insert_eq|].
  intros key Hp Hps. by rewrite !lookup_insert_ne.
Qed.

(** ** Further properties of the pipeline *)

(** On success [fetch_with_retry] returns the operation's value after that
    one invocation, with no wait. *)
Theorem fetch_with_retry_returns_first_success {Env A : Type} (rt : Runtime Env)
    (func : Env -> result A * Env) (max_retries : Z)
    (initial_delay backoff_factor : Q) (w : World Env) (v : A) (env1 : Env) :
  func (env w) = (Ok v, env1) →
  1 <= max_retries →
  fetch_with_retry rt func max_retries initial_delay backoff_factor w
  = (Ok v, mkWorld env1 (trace w ++ [EvInvoke])).
Proof.
  intros Hcall Hn. unfold fetch_with_retry.
  rewrite seqZ_cons by lia. simpl. by rewrite Hcall.
Qed.

Lemma fetch_with_retry_returns_first_success_witness :
  always_succeeds (env start) = (Ok (JStr "done"), env start)
  ∧ 1 <= 3
  ∧ fetch_with_retry clock_runtime always_succeeds 3 1 2 start
    = (Ok (JStr "done"), mkWorld (env start) (trace start ++ [EvInvoke])).
Proof.
  split; [reflexivity|]. split; [lia|].
  apply fetch_with_retry_returns_first_success; [reflexivity|lia].
Defined.

(** The example call [client.cards.list(rarity="rare", page_size=10)]: one GET
    of [<base>/cards] with the parameters [page], [pageSize] and [rarity]; on
    the 200 answer with quota headers the response has [success = true] and
    [rate_limit.remaining = 999]. *)
Theorem cards_list_rare_example :
  let kwargs : gmap string json := <["rarity" := JStr "rare"]> (<["page_size" := JInt 10]> ∅) in
  let run := CardsAPI_list_kwargs (fixed_server response_rare_cards) example_client kwargs
               start in
  (∃ resp, run.1 = Ok resp
     ∧ success resp = true
     ∧ remaining <$> resp_rate_limit resp = Some 999
     ∧ limit <$> resp_rate_limit resp = Some 1000)
  ∧ http_calls (trace run.2)
    = [mkRequest "GET" "https://api.dadddeck.com/v1/cards"
         (Some (<["rarity" := JStr "rare"]>
                  (<["pageSize" := JInt 10]> (<["page" := JInt 1]> ∅))))
         None 30].
Proof. split; [eexists; repeat split|reflexivity]. Qed.

(** The parser returns a [RateLimitInfo] only for a non-empty
    [X-RateLimit-Limit] header, whose value is the integer [limit]. *)
Theorem parse_rate_limit_headers_needs_limit (headers : CaseInsensitiveDict)
    (info : RateLimitInfo) :
  _parse_rate_limit_headers headers = Ok (Some info) →
  ∃ l, headers !! "X-RateLimit-Limit" = Some l ∧ l ≠ ""
       ∧ int_of_str l = Ok (limit info).
Proof.
  intros Hparse.
  destruct (parse_rate_limit_headers_Some headers info Hparse) as (l & Hl & Hn & _).
  exists l. repeat split; try done. intros ->.
  unfold _parse_rate_limit_headers in Hparse. by rewrite Hl in Hparse.
Qed.

Lemma parse_rate_limit_headers_needs_limit_witness :
  _parse_rate_limit_headers quota_headers
  = Ok (Some (mkRateLimitInfo 1000 0 (Some (mkDatetime 1700000060000000 true)) "free"))
  ∧ ∃ l, quota_headers !! "X-RateLimit-Limit" = Some l ∧ l ≠ ""
         ∧ int_of_str l = Ok 1000.
Proof.
  split; [reflexivity|].
  exact (parse_rate_limit_headers_needs_limit quota_headers
           (mkRateLimitInfo 1000 0 (Some (mkDatetime 1700000060000000 true)) "free") eq_refl).
Defined.

(** * Further properties *)

(** ** The retry delay over time *)

(** Whether [get_retry_delay] raises does not depend on the time of the
    query, and where it returns the delay is never negative and never grows
    as time passes. *)
Theorem get_retry_delay_never_grows fromiso (e : APIError) (t1 t2 : Z) :
  t1 <= t2 →
  (∀ x, get_retry_delay fromiso e t1 = Raise x ↔ get_retry_delay fromiso e t2 = Raise x)
  ∧ (∀ d1 d2, get_retry_delay fromiso e t1 = Ok d1 →
              get_retry_delay fromiso e t2 = Ok d2 → 0 <= d2 <= d1).
Proof.
  intros Ht. unfold get_retry_delay.
  destruct (rate_limit e) as [|d|info]; [split; [done|intros ?? [= <-] [= <-]; lia]| |done].
  case_decide; [split; [done|intros ?? [= <-] [= <-]; lia]|].
  destruct (d !! "resetAt") as [v|]; [|split; [done|intros ?? [= <-] [= <-]; lia]].
  destruct (anyval_truthy v); [|split; [done|intros ?? [= <-] [= <-]; lia]].
  destruct (match v with
            | VDatetime dt => Ok dt
            | VJson (JStr s) => fromiso (replace_Z s)
            | VJson _ => Raise TypeError
            end) as [reset|x]; simpl; [|done].
  unfold delay_ms_until. destruct (dt_aware reset); cbn [mbind result_bind]; [|done].
  split; [done|]. intros d1 d2 [= <-] [= <-].
  pose proof (whole_ms_mono (dt_us reset - t2) (dt_us reset - t1) ltac:(lia)).
  lia.
Qed.

Lemma get_retry_delay_never_grows_witness :
  1700000000000000 <= 1700000003000000
  ∧ get_retry_delay (fromisoformat clock_runtime) error_reset_in_5s 1700000000000000 = Ok 5000
  ∧ get_retry_delay (fromisoformat clock_runtime) error_reset_in_5s 1700000003000000 = Ok 2000
  ∧ 0 <= 2000 <= 5000.
Proof.
  split; [lia|]. split; [reflexivity|]. split; [reflexivity|].
  apply (proj2 (get_retry_delay_never_grows (fromisoformat clock_runtime) error_reset_in_5s
                  1700000000000000 1700000003000000 ltac:(lia)) 5000 2000);
    reflexivity.
Defined.

(** ** What [_request] returns and what it raises *)

Lemma result_bind_Raise {A B : Type} (r : result A) (k : A -> result B) (x : exn) :
  r ≫= k = Raise x → r = Raise x ∨ ∃ a, r = Ok a ∧ k a = Raise x.
Proof.
  destruct r as [a|y]; intros Hk; [right; exists a; split; [done|exact Hk]|left; by injection Hk as ->].
Qed.

(** The parser raises nothing but what [int] and [fromtimestamp] raise. *)
Lemma parse_rate_limit_headers_raises (hs : CaseInsensitiveDict) (x : exn) :
  _parse_rate_limit_headers hs = Raise x →
  x = ValueError ∨ x = OverflowError ∨ x = OSError.
Proof.
  unfold _parse_rate_limit_headers.
  destruct (hs !! "X-RateLimit-Limit") as [l|]; [|done].
  destruct (String.eqb l ""); [done|].
  intros [Hrem|(rem & _ & Hrest)]%result_bind_Raise.
  { destruct (hs !! "X-RateLimit-Remaining"); [left; by eapply int_of_str_raises|done]. }
  apply result_bind_Raise in Hrest as [Hreset|(reset_dt & _ & Hrest)].
  { destruct (hs !! "X-RateLimit-Reset") as [r|]; [|done].
    destruct (String.eqb r ""); [done|].
    apply result_bind_Raise in Hreset as [?|(ts & _ & Hreset)];
      [left; by eapply int_of_str_raises|].
    apply result_bind_Raise in Hreset as [?|(dt & _ & ?)];
      [by eapply fromtimestamp_utc_raises|done]. }
  apply result_bind_Raise in Hrest as [?|(n & _ & ?)];
    [left; by eapply int_of_str_raises|done].
Qed.

(** The handlers leave a returned value alone. *)
Lemma _request_except_Ok self r resp : _request_except self r = Ok resp → r = Ok resp.
Proof. destruct r as [?|[]]; simpl; intros Hr; by simplify_eq. Qed.

(** What the [try] body can return. *)
Lemma _request_try_Ok_inv outcome resp :
  _request_try outcome = Ok resp →
  ∃ response rl members,
    outcome = Ok response
    ∧ ok response = true
    ∧ _parse_rate_limit_headers (headers response) = Ok rl
    ∧ body_json response = Some (JObj members)
    ∧ resp = mkApiResponse (default JNull (assoc_get "data" members))
                           (default JNull (assoc_get "error" members))
                           (default JNull (assoc_get "meta" members)) rl.
Proof.
  unfold _request_try. intros Htry.
  apply result_bind_Ok in Htry as (response & -> & Htry).
  apply result_bind_Ok in Htry as (rl & Hrl & Htry).
  destruct (ok response) eqn:Hok; simpl in Htry.
  - apply result_bind_Ok in Htry as (body & Hbody & Htry).
    unfold Response_json in Hbody.
    destruct (body_json response) as [j|] eqn:Hj; [|done]. injection Hbody as ->.
    destruct body; try done. simpl in Htry. injection Htry as <-.
    by eexists _, _, _.
  - repeat (apply result_bind_Ok in Htry as (? & _ & Htry)). done.
Qed.

(** What an [APIError] raised by the [try] body with its handlers looks like,
    when the transport raises none of its own. *)
Lemma _request_error_inv self outcome err :
  plain_transport outcome →
  _request_except self (_request_try outcome) = Raise (APIErrorExc err) →
  (status err = None ∧ rate_limit err = RLNone
   ∧ (code err = JStr "TIMEOUT" ∨ code err = JStr "NETWORK_ERROR"))
  ∨ (∃ response rl,
       outcome = Ok response
       ∧ ok response = false
       ∧ _parse_rate_limit_headers (headers response) = Ok rl
       ∧ status err = Some (status_code response)
       ∧ rate_limit err = rate_limit_of rl).
Proof.
  intros Hplain Hraise.
  destruct (_request_try outcome) as [resp|x] eqn:Htry; [done|].
  destruct x as [e|msg|msg| | | | | |]; simpl in Hraise; try done;
    try (injection Hraise as <-; left; by auto).
  injection Hraise as ->. right.
  unfold _request_try in Htry.
  apply result_bind_Raise in Htry as [->|(response & -> & Htry)]; [by destruct (Hplain err)|].
  apply result_bind_Raise in Htry as [Hparse|(rl & Hrl & Htry)].
  { by apply parse_rate_limit_headers_raises in Hparse as [?|[?|?]]. }
  destruct (ok response) eqn:Hok; simpl in Htry.
  { repeat (apply result_bind_Raise in Htry as [Htry|(? & ? & Htry)];
            [unfold Response_json, py_get in Htry; by repeat case_match|]).
    done. }
  repeat (apply result_bind_Raise in Htry as [Htry|(? & ? & Htry)];
          [unfold Response_json, py_get in Htry; by repeat case_match|]).
  injection Htry as <-. by exists response, rl.
Qed.

Lemma ok_false_status response : ok response = false → 400 <= status_code response < 600.
Proof.
  unfold ok. destruct (Z.leb_spec 400 (status_code response));
    destruct (Z.ltb_spec (status_code response) 600); simpl; intros [=]; lia.
Qed.

Lemma ok_true_status response : ok response = true → ¬ 400 <= status_code response < 600.
Proof.
  unfold ok. destruct (Z.leb_spec 400 (status_code response));
    destruct (Z.ltb_spec (status_code response) 600); simpl; intros [=]; lia.
Qed.

Section RequestOutcomes.

Context {Env : Type}.
Variable session_request : http_request -> Env -> result Response * Env.
Variable self : DadDeckAPI.
Variables method endpoint : string.
Variable params : option (gmap string json).
Variable body : option json.

Local Abbreviation sent :=
  (mkRequest method (base_url self +:+ "/" +:+ lstrip_slash endpoint) params body
             (timeout self)).
Local Abbreviation call := (_request session_request self method endpoint params body).

Lemma _request_outcome (w : World Env) :
  (call w).1 = _request_except self (_request_try (session_request sent (env w)).1).
Proof. unfold _request. by destruct (session_request _ _). Qed.

(** An [ApiResponse] is returned only for an answer whose status is outside
    400..599, whose rate-limit headers parse and whose body is a JSON object;
    its [data], [error] and [meta] are the members of that name of the body
    ([None] for a missing one) and its [rate_limit] is the parser's result. *)
Theorem request_returns_only_ok_responses (w : World Env) (resp : ApiResponse) :
  (call w).1 = Ok resp →
  ∃ response rl members,
    (session_request sent (env w)).1 = Ok response
    ∧ ¬ 400 <= status_code response < 600
    ∧ _parse_rate_limit_headers (headers response) = Ok rl
    ∧ body_json response = Some (JObj members)
    ∧ data resp = default JNull (assoc_get "data" members)
    ∧ error resp = default JNull (assoc_get "error" members)
    ∧ meta resp = default JNull (assoc_get "meta" members)
    ∧ resp_rate_limit resp = rl.
Proof.
  rewrite _request_outcome. intros Hok. apply _request_except_Ok in Hok.
  apply _request_try_Ok_inv in Hok
    as (response & rl & members & Hout & Hresp & Hrl & Hbody & ->).
  exists response, rl, members. repeat split; try done. by apply ok_true_status.
Qed.

(** Every [APIError] that [_request] raises, the transport raising none of its
    own, is of one of two kinds: a transport failure, with the code [TIMEOUT]
    or [NETWORK_ERROR] and neither status nor snapshot; or the classification
    of an answer with a status in 400..599, carrying that status and the
    parser's result. *)
Theorem request_errors_are_classified (w : World Env) (err : APIError) :
  plain_transport (session_request sent (env w)).1 →
  (call w).1 = Raise (APIErrorExc err) →
  (status err = None ∧ rate_limit err = RLNone
   ∧ (code err = JStr "TIMEOUT" ∨ code err = JStr "NETWORK_ERROR"))
  ∨ (∃ response rl,
       (session_request sent (env w)).1 = Ok response
       ∧ 400 <= status_code response < 600
       ∧ _parse_rate_limit_headers (headers response) = Ok rl
       ∧ status err = Some (status_code response)
       ∧ rate_limit err = rate_limit_of rl).
Proof.
  rewrite _request_outcome. intros Hplain Hraise.
  destruct (_request_error_inv self _ err Hplain Hraise)
    as [?|(response & rl & ? & Hst%ok_false_status & ?)]; [by left|right].
  by exists response, rl.
Qed.

(** On an [APIError] raised by [_request], the transport raising none of its
    own, [get_retry_delay] never computes a delay from the reset time: the
    error has no snapshot and the delay is 60000, or it carries the parser's
    [RateLimitInfo] and the call raises [AttributeError]. *)
Theorem request_error_retry_delay (w : World Env) (err : APIError) fromiso (t : Z) :
  plain_transport (session_request sent (env w)).1 →
  (call w).1 = Raise (APIErrorExc err) →
  (rate_limit err = RLNone ∧ get_retry_delay fromiso err t = Ok 60000)
  ∨ (∃ info, rate_limit err = RLInfo info
             ∧ get_retry_delay fromiso err t = Raise AttributeError).
Proof.
  rewrite _request_outcome. intros Hplain Hraise. unfold get_retry_delay.
  destruct (_request_error_inv self _ err Hplain Hraise)
    as [(_ & -> & _)|(response & rl & _ & _ & _ & _ & ->)]; [by left|].
  destruct rl as [info|]; [right; by exists info|by left].
Qed.

(** A rate-limit header that does not parse makes [_request] raise the
    parser's exception, whatever the status and the body of the answer: a
    [ValueError], an [OverflowError] or an [OSError], which no handler of
    [_request] catches, and never an [APIError]. *)
Theorem request_bad_quota_header_escapes (w : World Env) (response : Response) (x : exn) :
  (session_request sent (env w)).1 = Ok response →
  _parse_rate_limit_headers (headers response) = Raise x →
  (call w).1 = Raise x ∧ (x = ValueError ∨ x = OverflowError ∨ x = OSError).
Proof.
  intros Hout Hparse. rewrite _request_outcome, Hout.
  unfold _request_try. simpl. rewrite Hparse. simpl.
  destruct (parse_rate_limit_headers_raises _ _ Hparse) as [-> | [-> | ->]]; split; auto.
Qed.

End RequestOutcomes.

Lemma request_returns_only_ok_responses_witness :
  (_request (fixed_server response_rare_cards) example_client "GET" "/cards" None None
     start).1
  = Ok (mkApiResponse (listing (card <$> seqZ 1 10) true) JNull (JObj [])
          (Some (mkRateLimitInfo 1000 999 (Some (mkDatetime 1700000060000000 true))
                                 "unknown")))
  ∧ ∃ response rl members,
      (fixed_server response_rare_cards
         (mkRequest "GET" (base_url example_client +:+ "/" +:+ lstrip_slash "/cards")
                    None None (timeout example_client)) (env start)).1 = Ok response
      ∧ ¬ 400 <= status_code response < 600
      ∧ _parse_rate_limit_headers (headers response) = Ok rl
      ∧ body_json response = Some (JObj members)
      ∧ listing (card <$> seqZ 1 10) true = default JNull (assoc_get "data" members)
      ∧ JNull = default JNull (assoc_get "error" members)
      ∧ JObj [] = default JNull (assoc_get "meta" members)
      ∧ Some (mkRateLimitInfo 1000 999 (Some (mkDatetime 1700000060000000 true)) "unknown")
        = rl.
Proof.
  split; [reflexivity|].
  exact (request_returns_only_ok_responses (fixed_server response_rare_cards) example_client
           "GET" "/cards" None None start _ eq_refl).
Defined.

Lemma request_errors_are_classified_witness :
  plain_transport
    (fixed_server response_429
       (mkRequest "GET" (base_url example_client +:+ "/" +:+ lstrip_slash "/cards")
                  None None (timeout example_client)) (env start)).1
  ∧ (_request (fixed_server response_429) example_client "GET" "/cards" None None start).1
    = Raise (APIErrorExc error_429)
  ∧ ((status error_429 = None ∧ rate_limit error_429 = RLNone
      ∧ (code error_429 = JStr "TIMEOUT" ∨ code error_429 = JStr "NETWORK_ERROR"))
     ∨ (∃ response rl,
          (fixed_server response_429
             (mkRequest "GET" (base_url example_client +:+ "/" +:+ lstrip_slash "/cards")
                        None None (timeout example_client)) (env start)).1 = Ok response
          ∧ 400 <= status_code response < 600
          ∧ _parse_rate_limit_headers (headers response) = Ok rl
          ∧ status error_429 = Some (status_code response)
          ∧ rate_limit error_429 = rate_limit_of rl)).
Proof.
  assert (Hplain : plain_transport
    (fixed_server response_429
       (mkRequest "GET" (base_url example_client +:+ "/" +:+ lstrip_slash "/cards")
                  None None (timeout example_client)) (env start)).1)
    by (intros e; discriminate).
  split; [exact Hplain|]. split; [reflexivity|].
  exact (request_errors_are_classified (fixed_server response_429) example_client
           "GET" "/cards" None None start error_429 Hplain eq_refl).
Defined.

Lemma request_error_retry_delay_witness :
  (_request (fixed_server response_429_no_quota) example_client "GET" "/cards" None None
     start).1
  = Raise (APIErrorExc rate_limited_error)
  ∧ ((rate_limit rate_limited_error = RLNone
      ∧ get_retry_delay (fromisoformat clock_runtime) rate_limited_error (env start)
        = Ok 60000)
     ∨ (∃ info, rate_limit rate_limited_error = RLInfo info
                ∧ get_retry_delay (fromisoformat clock_runtime) rate_limited_error (env start)
                  = Raise AttributeError)).
Proof.
  split; [reflexivity|].
  apply (request_error_retry_delay (fixed_server response_429_no_quota) example_client
           "GET" "/cards" None None start rate_limited_error);
    [intros e; discriminate|reflexivity].
Defined.

Lemma request_bad_quota_header_escapes_witness :
  status_code response_200_far_reset = 200
  ∧ _parse_rate_limit_headers (headers response_200_far_reset) = Raise OSError
  ∧ (_request (fixed_server response_200_far_reset) example_client "GET" "/cards" None None
       start).1 = Raise OSError
  ∧ (OSError = ValueError ∨ OSError = OverflowError ∨ OSError = OSError).
Proof.
  split; [reflexivity|]. split; [reflexivity|].
  exact (request_bad_quota_header_escapes (fixed_server response_200_far_reset)
           example_client "GET" "/cards" None None start response_200_far_reset OSError
           eq_refl eq_refl).
Defined.

(** ** The rate-limit parser: what it reads *)

(** Access to the headers by name, after a header was set or removed. *)
Lemma CaseInsensitiveDict_lookup_insert (hs : CaseInsensitiveDict) (name value key : string) :
  lower name = lower key → <[name := value]> hs !! key = Some value.
Proof.
  intros Heq. unfold lookup, insert, CaseInsensitiveDict_lookup, CaseInsensitiveDict_insert.
  simpl. rewrite Heq. apply lookup_insert_eq.
Qed.

Lemma CaseInsensitiveDict_lookup_insert_ne (hs : CaseInsensitiveDict)
    (name value key : string) :
  lower name ≠ lower key → <[name := value]> hs !! key = hs !! key.
Proof.
  intros Hne. unfold lookup, insert, CaseInsensitiveDict_lookup, CaseInsensitiveDict_insert.
  simpl. by apply lookup_insert_ne.
Qed.

Lemma CaseInsensitiveDict_lookup_delete_ne (hs : CaseInsensitiveDict) (name key : string) :
  lower name ≠ lower key → delete name hs !! key = hs !! key.
Proof.
  intros Hne. unfold lookup, delete, CaseInsensitiveDict_lookup, CaseInsensitiveDict_delete.
  simpl. by apply lookup_delete_ne.
Qed.

(** The parser reads the four rate-limit headers, under whatever case their
    names are written in, and nothing else: a header set under a name that
    differs from [X-RateLimit-Limit] in the case of its letters only is the
    limit the parser reads, and adding, changing or removing a header whose
    name differs from the four names even when case is ignored leaves the
    parser's outcome unchanged. *)
Theorem parse_rate_limit_headers_ignores_other_headers (hs : CaseInsensitiveDict)
    (name value : string) :
  (lower name = lower "X-RateLimit-Limit" →
   <[name := value]> hs !! "X-RateLimit-Limit" = Some value
   ∧ ∀ info, _parse_rate_limit_headers (<[name := value]> hs) = Ok (Some info) →
             int_of_str value = Ok (limit info))
  ∧ (lower name ≠ lower "X-RateLimit-Limit" →
     lower name ≠ lower "X-RateLimit-Remaining" →
     lower name ≠ lower "X-RateLimit-Reset" →
     lower name ≠ lower "X-RateLimit-Tier" →
     _parse_rate_limit_headers (<[name := value]> hs) = _parse_rate_limit_headers hs
     ∧ _parse_rate_limit_headers (delete name hs) = _parse_rate_limit_headers hs).
Proof.
  split.
  - intros Hname.
    pose proof (CaseInsensitiveDict_lookup_insert hs name value _ Hname) as Hl.
    split; [done|].
    intros info (l & Hl' & Hn & _)%parse_rate_limit_headers_Some.
    rewrite Hl in Hl'. by injection Hl' as <-.
  - intros Hl Hr Ht Hq. unfold _parse_rate_limit_headers.
    by rewrite !CaseInsensitiveDict_lookup_insert_ne, !CaseInsensitiveDict_lookup_delete_ne.
Qed.

Lemma parse_rate_limit_headers_ignores_other_headers_witness :
  (lower "x-ratelimit-limit" = lower "X-RateLimit-Limit"
   ∧ <["x-ratelimit-limit" := "250"]> quota_headers !! "X-RateLimit-Limit" = Some "250"
   ∧ _parse_rate_limit_headers (<["x-ratelimit-limit" := "250"]> quota_headers)
     = Ok (Some (mkRateLimitInfo 250 0 (Some (mkDatetime 1700000060000000 true)) "free"))
   ∧ int_of_str "250" = Ok 250)
  ∧ lower "Content-Type" ≠ lower "X-RateLimit-Limit"
  ∧ _parse_rate_limit_headers (<["Content-Type" := "application/json"]> quota_headers)
    = _parse_rate_limit_headers quota_headers.
Proof.
  split; [|split; [discriminate|]].
  - split; [reflexivity|].
    pose proof (proj1 (parse_rate_limit_headers_ignores_other_headers quota_headers
                         "x-ratelimit-limit" "250") eq_refl) as (Hl & Hlimit).
    split; [exact Hl|]. split; [reflexivity|]. exact (Hlimit _ eq_refl).
  - exact (proj1 (proj2 (parse_rate_limit_headers_ignores_other_headers quota_headers
                           "Content-Type" "application/json")
                    ltac:(discriminate) ltac:(discriminate) ltac:(discriminate)
                    ltac:(discriminate))).
Defined.

(** In a [RateLimitInfo] the parser returns, [reset_at] is empty exactly when
    the [X-RateLimit-Reset] header is missing or empty; otherwise it is the
    time-zone aware datetime of the whole second the header names, within the
    years 1..9999. *)
Theorem parse_rate_limit_headers_reset_at (hs : CaseInsensitiveDict) (info : RateLimitInfo) :
  _parse_rate_limit_headers hs = Ok (Some info) →
  match hs !! "X-RateLimit-Reset" with
  | None => reset_at info = None
  | Some r =>
      if String.eqb r "" then reset_at info = None
      else ∃ ts, int_of_str r = Ok ts
                 ∧ -62135596800 <= ts <= 253402300799
                 ∧ reset_at info = Some (mkDatetime (ts * 1000000) true)
  end.
Proof.
  unfold _parse_rate_limit_headers.
  destruct (hs !! "X-RateLimit-Limit") as [l|]; [|done].
  destruct (String.eqb l ""); [done|]. intros Hparse.
  apply result_bind_Ok in Hparse as (rem & _ & Hparse).
  apply result_bind_Ok in Hparse as (reset_dt & Hreset & Hparse).
  apply result_bind_Ok in Hparse as (n & _ & Hparse).
  injection Hparse as <-. simpl.
  destruct (hs !! "X-RateLimit-Reset") as [r|]; [|by injection Hreset].
  destruct (String.eqb r ""); [by injection Hreset|].
  apply result_bind_Ok in Hreset as (ts & Hts & Hreset).
  apply result_bind_Ok in Hreset as (dt & Hdt & Hreset).
  injection Hreset as <-. exists ts. split; [done|].
  by apply fromtimestamp_utc_Ok_inv in Hdt as [? ->].
Qed.

Lemma parse_rate_limit_headers_reset_at_witness :
  _parse_rate_limit_headers quota_headers
  = Ok (Some (mkRateLimitInfo 1000 0 (Some (mkDatetime 1700000060000000 true)) "free"))
  ∧ ∃ ts, int_of_str "1700000060" = Ok ts
          ∧ -62135596800 <= ts <= 253402300799
          ∧ Some (mkDatetime 1700000060000000 true) = Some (mkDatetime (ts * 1000000) true).
Proof.
  split; [reflexivity|].
  exact (parse_rate_limit_headers_reset_at quota_headers
           (mkRateLimitInfo 1000 0 (Some (mkDatetime 1700000060000000 true)) "free") eq_refl).
Defined.

(** ** The retry helper: attempts, recovery and waits *)

Lemma py_max_ge_l (a b : Q) : (a <= py_max a b)%Q.
Proof.
  unfold py_max. destruct (Qle_bool b a) eqn:Hle; simpl; [apply Qle_refl|].
  destruct (Qlt_le_dec b a) as [Hlt|Hge]; [|done].
  apply Qlt_le_weak, Qle_bool_iff in Hlt. congruence.
Qed.

(** In the events of a run each wait follows an invocation and precedes one. *)
Lemma attempts_trace_counts bf delay seg :
  attempts_trace bf delay seg → invocations seg = S (length (sleeps seg)).
Proof.
  induction 1 as [delay|delay ms rest Hms Hrest IH]; [done|].
  etransitivity; [apply (invocations_app [_; _; _] rest)|].
  rewrite IH. change (sleeps (?a :: ?b :: EvSleep ?d :: rest)) with (d :: sleeps rest).
  done.
Qed.

Section RetryBounds.

Context {Env A : Type} (rt : Runtime Env).
Variable func : Env -> result A * Env.
Variable max_retries : Z.
Variable backoff_factor : Q.

Local Abbreviation loop := (retry_loop rt func max_retries backoff_factor).

(** The loop invokes the operation at most once per attempt left. *)
Lemma retry_loop_invocations_le attempts : ∀ delay w,
  ∃ seg, trace (loop attempts delay w).2 = trace w ++ seg
         ∧ (invocations seg <= length attempts)%nat.
Proof.
  induction attempts as [|attempt rest IH]; intros delay w; simpl.
  { exists []. by rewrite app_nil_r. }
  destruct (func (env w)) as [r env1]; destruct r as [v|[e| | | | | | | |]];
    try (exists [EvInvoke]; split; [done|unfold invocations; simpl; lia]).
  destruct (is_rate_limit_error e && (attempt <? max_retries - 1));
    [|exists [EvInvoke]; split; [done|unfold invocations; simpl; lia]].
  destruct (get_retry_delay _ e _) as [ms|x];
    [|exists [EvInvoke]; split; [done|unfold invocations; simpl; lia]].
  match goal with
  | |- context [loop rest ?d ?w'] => destruct (IH d w') as (seg & -> & Hle)
  end.
  eexists ([EvInvoke; EvPrint _; EvSleep _] ++ seg). split.
  - unfold emit. cbn [trace]. by rewrite <- !app_assoc.
  - rewrite invocations_app. unfold invocations in *. simpl. lia.
Qed.

(** When every retry delay the operation's errors yield is 60000 ms, every
    wait of the loop lasts at least a minute. *)
Lemma retry_loop_waits_a_minute attempts :
  (∀ s e s' t ms, func s = (Raise (APIErrorExc e), s') →
     get_retry_delay (fromisoformat rt) e t = Ok ms → ms = 60000) →
  ∀ delay w,
  ∃ seg, trace (loop attempts delay w).2 = trace w ++ seg
         ∧ Forall (λ d, 60 <= d)%Q (sleeps seg).
Proof.
  intros Hfunc.
  induction attempts as [|attempt rest IH]; intros delay w; simpl.
  { exists []. by rewrite app_nil_r. }
  destruct (func (env w)) as [r env1] eqn:Hcall; destruct r as [v|[e| | | | | | | |]];
    try (exists [EvInvoke]; split; [done|constructor]).
  destruct (is_rate_limit_error e && (attempt <? max_retries - 1));
    [|exists [EvInvoke]; split; [done|constructor]].
  destruct (get_retry_delay _ e _) as [ms|x] eqn:Hms;
    [|exists [EvInvoke]; split; [done|constructor]].
  rewrite (Hfunc _ _ _ _ _ Hcall Hms).
  match goal with
  | |- context [loop rest ?d ?w'] => destruct (IH d w') as (seg & -> & Hall)
  end.
  eexists ([EvInvoke; EvPrint _; EvSleep _] ++ seg). split.
  - unfold emit. cbn [trace]. by rewrite <- !app_assoc.
  - rewrite sleeps_app. apply Forall_app. split; [|done].
    repeat constructor. eapply Qle_trans; [|apply py_max_ge_l]. unfold Qle. simpl. lia.
Qed.

End RetryBounds.

(** Whatever the operation does, [fetch_with_retry] invokes it at most
    [max_retries] times, at least once when [max_retries >= 1], and sleeps
    exactly once between two consecutive invocations: one wait less than
    there are invocations. *)
Theorem fetch_with_retry_attempts_bounded {Env A : Type} (rt : Runtime Env)
    (func : Env -> result A * Env) (max_retries : Z)
    (initial_delay backoff_factor : Q) (w : World Env) :
  ∃ seg,
    trace (fetch_with_retry rt func max_retries initial_delay backoff_factor w).2
    = trace w ++ seg
    ∧ Z.of_nat (invocations seg) <= Z.max 0 max_retries
    ∧ (1 <= max_retries → (1 <= invocations seg)%nat)
    ∧ length (sleeps seg) = (invocations seg - 1)%nat.
Proof.
  unfold fetch_with_retry.
  destruct (retry_loop_invocations_le rt func max_retries backoff_factor
              (seqZ 0 max_retries) initial_delay w) as (seg & Hseg & Hle).
  exists seg. split; [done|]. rewrite length_seqZ in Hle. split; [lia|].
  destruct (Z.le_gt_cases max_retries 0) as [Hn|Hn].
  - rewrite seqZ_nil in Hseg by done. simpl in Hseg.
    assert (seg = []) as ->.
    { apply (f_equal length) in Hseg. rewrite length_app in Hseg.
      destruct seg; [done|simpl in Hseg; lia]. }
    split; [lia|done].
  - destruct (retry_loop_trace rt func max_retries backoff_factor
                (Z.to_nat max_retries - 1) 0 initial_delay w) as (seg' & Hseg' & Hshape);
      [lia|].
    replace (Z.of_nat (S (Z.to_nat max_retries - 1))) with max_retries in Hseg' by lia.
    rewrite Hseg in Hseg'. apply app_inv_head in Hseg' as <-.
    rewrite (attempts_trace_counts _ _ _ Hshape). split; lia.
Qed.

Section RetryRecovery.

Context {Env A : Type} (rt : Runtime Env).
Variable func : Env -> result A * Env.
Variable max_retries : Z.
Variable backoff_factor : Q.
Variable failures_left : Env -> nat.
Hypothesis Hflaky : rate_limited_then_ok rt func failures_left.

Local Abbreviation loop := (retry_loop rt func max_retries backoff_factor).

(** With [n + 1] attempts left: the loop returns what the operation returns
    once the failures still to come are over, when they number at most [n],
    and otherwise ends on the rate-limit error of its last attempt. *)
Lemma retry_loop_countdown (n : nat) : ∀ attempt delay w,
  attempt + Z.of_nat (S n) = max_retries →
  let k := failures_left (env w) in
  ∃ r w', loop (seqZ attempt (Z.of_nat (S n))) delay w = (r, w')
    ∧ invocations (trace w') = (invocations (trace w) + S (k `min` n))%nat
    ∧ length (sleeps (trace w')) = (length (sleeps (trace w)) + k `min` n)%nat
    ∧ if decide (k <= n)%nat
      then ∃ v s, r = Ok v ∧ failures_left s = 0%nat ∧ func s = (Ok v, env w')
      else ∃ e s, r = Raise (APIErrorExc e) ∧ func s = (Raise (APIErrorExc e), env w')
                  ∧ is_rate_limit_error e = true.
Proof.
  destruct Hflaky as (Hsleep & Hok & Hfail).
  induction n as [|n IH]; intros attempt delay w Hlen k; subst k;
    rewrite seqZ_cons by lia; simpl;
    destruct (failures_left (env w)) as [|k] eqn:Hk.
  - destruct (Hok _ Hk) as (v & s' & Hcall). rewrite Hcall. eexists _, _. split; [done|].
    split; [count_events|]. split; [count_events|]. by exists v, (env w).
  - destruct (Hfail _ _ Hk) as (e & s' & Hcall & Hrl & _ & _). rewrite Hcall, Hrl. simpl.
    destruct (Z.ltb_spec attempt (max_retries - 1)); [lia|].
    eexists _, _. split; [done|]. split; [count_events|]. split; [count_events|].
    try (case_decide; [lia|]). by exists e, (env w).
  - destruct (Hok _ Hk) as (v & s' & Hcall). rewrite Hcall. eexists _, _. split; [done|].
    split; [count_events|]. split; [count_events|]. by exists v, (env w).
  - destruct (Hfail _ _ Hk) as (e & s' & -> & Hrl & Hdelay & Hk'). rewrite Hrl. simpl.
    destruct (Z.ltb_spec attempt (max_retries - 1)); [|lia].
    destruct (Hdelay (now rt s')) as [ms ->].
    replace (Z.pred (Z.of_nat (S (S n)))) with (Z.of_nat (S n)) by lia.
    match goal with
    | |- context [loop _ ?d ?w1] =>
        destruct (IH (Z.succ attempt) d w1) as (r & w' & -> & Hinv & Hsl & Hres); [lia|]
    end.
    cbn [env emit trace] in Hinv, Hsl, Hres. rewrite Hsleep, Hk' in Hinv, Hsl, Hres.
    exists r, w'. split; [done|]. split; [|split].
    + rewrite Hinv. rewrite !invocations_app. unfold invocations. simpl. lia.
    + rewrite Hsl. rewrite !sleeps_app, !length_app. simpl. lia.
    + repeat case_decide; try done; lia.
Qed.

End RetryRecovery.

(** Against an operation that is rate-limited a number of times and then
    succeeds, [fetch_with_retry] returns the value that the operation returns
    on its first invocation without a failure left, leaving the environment
    as that invocation left it, after one invocation more than there were
    failures and one wait per failure, provided [max_retries] exceeds the
    number of failures; with [1 <= max_retries] and at least that many
    failures to come it gives up after [max_retries] invocations with the
    rate-limit error that the operation raised last. *)
Theorem fetch_with_retry_recovers {Env A : Type} (rt : Runtime Env)
    (func : Env -> result A * Env) (failures_left : Env -> nat) (max_retries : Z)
    (initial_delay backoff_factor : Q) (w : World Env) :
  rate_limited_then_ok rt func failures_left →
  let k := failures_left (env w) in
  let run := fetch_with_retry rt func max_retries initial_delay backoff_factor w in
  (Z.of_nat k < max_retries →
     (∃ v s, run.1 = Ok v ∧ failures_left s = 0%nat ∧ func s = (Ok v, env run.2))
     ∧ invocations (trace run.2) = (invocations (trace w) + k + 1)%nat
     ∧ length (sleeps (trace run.2)) = (length (sleeps (trace w)) + k)%nat)
  ∧ (1 <= max_retries <= Z.of_nat k →
     (∃ e s, run.1 = Raise (APIErrorExc e) ∧ func s = (Raise (APIErrorExc e), env run.2)
             ∧ is_rate_limit_error e = true)
     ∧ Z.of_nat (invocations (trace run.2)) = Z.of_nat (invocations (trace w)) + max_retries).
Proof.
  intros Hflaky k run. unfold run, fetch_with_retry.
  split; intros Hn.
  - destruct (retry_loop_countdown rt func max_retries backoff_factor failures_left Hflaky
                (Z.to_nat max_retries - 1) 0 initial_delay w)
      as (r & w' & Hrun & Hinv & Hsl & Hres); [lia|].
    replace (Z.of_nat (S (Z.to_nat max_retries - 1))) with max_retries in Hrun by lia.
    rewrite Hrun. fold k in Hinv, Hsl, Hres. cbn [fst snd].
    case_decide; [|lia]. repeat split; [done|lia|lia].
  - destruct (retry_loop_countdown rt func max_retries backoff_factor failures_left Hflaky
                (Z.to_nat max_retries - 1) 0 initial_delay w)
      as (r & w' & Hrun & Hinv & Hsl & Hres); [lia|].
    replace (Z.of_nat (S (Z.to_nat max_retries - 1))) with max_retries in Hrun by lia.
    rewrite Hrun. fold k in Hinv, Hsl, Hres. cbn [fst snd].
    case_decide; [lia|]. split; [done|lia].
Qed.

Lemma fetch_with_retry_recovers_witness :
  rate_limited_then_ok countdown_runtime flaky (λ n, n)
  ∧ Z.of_nat 2 < 3
  ∧ (fetch_with_retry countdown_runtime flaky 3 1 2 (mkWorld 2%nat [])).1 = Ok (JStr "done")
  ∧ (∃ v s, (fetch_with_retry countdown_runtime flaky 3 1 2 (mkWorld 2%nat [])).1 = Ok v
            ∧ s = 0%nat
            ∧ flaky s
              = (Ok v, env (fetch_with_retry countdown_runtime flaky 3 1 2
                              (mkWorld 2%nat [])).2))
  ∧ invocations (trace (fetch_with_retry countdown_runtime flaky 3 1 2 (mkWorld 2%nat [])).2)
    = (invocations [] + 2 + 1)%nat
  ∧ length (sleeps (trace (fetch_with_retry countdown_runtime flaky 3 1 2
                             (mkWorld 2%nat [])).2))
    = (length (sleeps []) + 2)%nat.
Proof.
  assert (Hflaky : rate_limited_then_ok countdown_runtime flaky (λ n, n)).
  { split; [done|]. split.
    - intros s ->. by eexists _, _.
    - intros s n ->. exists rate_limited_error, n. repeat split.
      intros t. by exists 60000. }
  split; [exact Hflaky|]. split; [lia|]. split; [reflexivity|].
  exact (proj1 (fetch_with_retry_recovers countdown_runtime flaky (λ n, n) 3 1 2
                  (mkWorld 2%nat []) Hflaky) (eq_refl : Z.of_nat 2 < 3)).
Defined.



(** Around a call of [_request], the transport raising no [APIError] of its
    own, every wait of [fetch_with_retry] lasts at least 60 seconds: the delay
    it takes from the error is the default of 60000 ms, never the time to the
    reset the server announced. *)
Theorem fetch_with_retry_on_request_waits_a_minute {Env : Type} (rt : Runtime Env)
    (session_request : http_request -> Env -> result Response * Env)
    (self : DadDeckAPI) (method endpoint : string)
    (params : option (gmap string json)) (body : option json)
    (max_retries : Z) (initial_delay backoff_factor : Q) (w : World Env)
    (before : list event) (seconds : Q) (after : list event) :
  (∀ req s, plain_transport (session_request req s).1) →
  trace (fetch_with_retry rt
           (as_operation (_request session_request self method endpoint params body))
           max_retries initial_delay backoff_factor w).2
  = trace w ++ before ++ EvSleep seconds :: after →
  (60 <= seconds)%Q.
Proof.
  intros Hplain Htrace. unfold fetch_with_retry in Htrace.
  destruct (retry_loop_waits_a_minute rt
              (as_operation (_request session_request self method endpoint params body))
              max_retries backoff_factor (seqZ 0 max_retries)) with (delay := initial_delay)
              (w := w) as (seg & Hseg & Hall).
  { intros s e s' t ms Hcall Hms. unfold as_operation in Hcall.
    pose proof (_request_outcome session_request self method endpoint params body
                  (mkWorld s [])) as Hout.
    destruct (_request _ _ _ _ _ _ _) as [r w1]. simpl in Hout.
    injection Hcall as -> _. symmetry in Hout.
    unfold get_retry_delay in Hms.
    destruct (_request_error_inv self _ e (Hplain _ _) Hout)
      as [(_ & Hrl & _)|(response & [info|] & _ & _ & _ & _ & Hrl)];
      rewrite Hrl in Hms; simpl in Hms; by simplify_eq. }
  rewrite Hseg in Htrace. apply app_inv_head in Htrace as ->.
  rewrite sleeps_app in Hall. apply Forall_app in Hall as [_ Hall].
  change (sleeps (EvSleep seconds :: after)) with (seconds :: sleeps after) in Hall.
  by apply Forall_cons in Hall as [? _].
Qed.

Lemma fetch_with_retry_on_request_waits_a_minute_witness :
  (∀ (req : http_request) (s : Z),
     plain_transport (fixed_server response_429_no_quota req s).1)
  ∧ trace (fetch_with_retry clock_runtime
             (as_operation (_request (fixed_server response_429_no_quota) example_client
                              "GET" "/cards" None None))
             2 1 2 start).2
    = trace start ++ [EvInvoke; EvPrint (60000 # 1000)] ++ EvSleep (60000 # 1000) :: [EvInvoke]
  ∧ (60 <= 60000 # 1000)%Q.
Proof.
  assert (Hplain : ∀ (req : http_request) (s : Z),
            plain_transport (fixed_server response_429_no_quota req s).1)
    by (intros req s e; discriminate).
  split; [exact Hplain|]. split; [reflexivity|].
  exact (fetch_with_retry_on_request_waits_a_minute clock_runtime
           (fixed_server response_429_no_quota) example_client "GET" "/cards" None None
           2 1 2 start [EvInvoke; EvPrint (60000 # 1000)] (60000 # 1000)%Q [EvInvoke]
           Hplain eq_refl).
Defined.

(** ** The endpoint wrappers *)

Lemma http_calls_app (t1 t2 : list event) :
  http_calls (t1 ++ t2) = http_calls t1 ++ http_calls t2.
Proof. apply omap_app. Qed.

(** The request a call of [_request] sends. *)
Lemma _request_http_calls {Env : Type}
    (session_request : http_request -> Env -> result Response * Env)
    (self : DadDeckAPI) (method endpoint : string) params body (w : World Env) :
  http_calls (trace (_request session_request self method endpoint params body w).2)
  = http_calls (trace w)
    ++ [mkRequest method (base_url self +:+ "/" +:+ lstrip_slash endpoint) params body
                  (timeout self)].
Proof.
  unfold _request. destruct (session_request _ _). cbn [snd trace].
  by rewrite http_calls_app.
Qed.

Lemma lookup_set_if_truthy (key : string) (v : json) (params : gmap string json)
    (key' : string) :
  set_if_truthy key v params !! key'
  = if decide (key = key') then (if truthy v then Some v else params !! key')
    else params !! key'.
Proof.
  unfold set_if_truthy. destruct (truthy v); case_decide; subst;
    by rewrite ?lookup_insert_eq, ?lookup_insert_ne.
Qed.

Lemma lookup_set_if_truthy_Some key v params key' x :
  set_if_truthy key v params !! key' = Some x →
  (key' = key ∧ truthy x = true) ∨ params !! key' = Some x.
Proof.
  rewrite lookup_set_if_truthy. case_decide; [subst|by right].
  destruct (truthy v) eqn:Hv; [|by right]. intros [= <-]. by left.
Qed.

Lemma assoc_get_app key (m1 m2 : list (string * json)) :
  assoc_get key (m1 ++ m2)
  = match assoc_get key m1 with Some v => Some v | None => assoc_get key m2 end.
Proof.
  induction m1 as [|[k v] m1 IH]; [done|]. simpl. by destruct (String.eqb k key).
Qed.

Lemma assoc_get_add_if_truthy key v members key' :
  assoc_get key' (add_if_truthy key v members)
  = match assoc_get key' members with
    | Some x => Some x
    | None => if truthy v && String.eqb key key' then Some v else None
    end.
Proof.
  unfold add_if_truthy. destruct (truthy v); simpl.
  - rewrite assoc_get_app. simpl. by destruct (String.eqb key key').
  - by destruct (assoc_get key' members).
Qed.

Section EndpointArguments.

Context {Env : Type}.
Variable session_request : http_request -> Env -> result Response * Env.
Variable isoformat : datetime -> string.
Variable self : DadDeckAPI.

(** [CardsAPI.list] always sends [page] and [pageSize], as given, and sends
    each of [rarity], [type], [series] and [search] exactly when the argument
    is truthy, unchanged; a filter that is [None], empty or zero is left out,
    and no other parameter is sent. *)
Theorem cards_list_query (page page_size rarity type series search : json)
    (w : World Env) :
  ∃ params,
    http_calls
      (trace (CardsAPI_list session_request self page page_size rarity type series search
                w).2)
    = http_calls (trace w)
      ++ [mkRequest "GET" (base_url self +:+ "/cards") (Some params) None (timeout self)]
    ∧ params !! "page" = Some page
    ∧ params !! "pageSize" = Some page_size
    ∧ params !! "rarity" = (if truthy rarity then Some rarity else None)
    ∧ params !! "type" = (if truthy type then Some type else None)
    ∧ params !! "series" = (if truthy series then Some series else None)
    ∧ params !! "search" = (if truthy search then Some search else None)
    ∧ ∀ key, is_Some (params !! key) →
             key ∈ ["page"; "pageSize"; "rarity"; "type"; "series"; "search"].
Proof.
  unfold CardsAPI_list. eexists. split; [apply _request_http_calls|].
  repeat split;
    try (rewrite !lookup_set_if_truthy; repeat case_decide; try done;
         by rewrite ?lookup_insert_eq, ?lookup_insert_ne, ?lookup_empty).
  intros key [x Hx].
  repeat (apply lookup_set_if_truthy_Some in Hx as [[-> _]|Hx];
          [set_unfold; tauto|]).
  apply lookup_insert_Some in Hx as [[<- _]|[_ Hx]]; [set_unfold; tauto|].
  apply lookup_insert_Some in Hx as [[<- _]|[_ Hx]]; [set_unfold; tauto|].
  by rewrite lookup_empty in Hx.
Qed.

(** No optional filter travels with a falsy value: in the requests of
    [CardsAPI.list], [CardsAPI.random], [CollectionsAPI.get] and
    [EventsAPI.list] every query parameter other than the required ones is
    truthy. *)
Theorem optional_filters_are_truthy (w : World Env) :
  (∀ page page_size rarity type series search,
     ∃ req, http_calls (trace (CardsAPI_list session_request self page page_size rarity
                                 type series search w).2)
            = http_calls (trace w) ++ [req]
            ∧ optional_params_truthy ["page"; "pageSize"] req)
  ∧ (∀ count rarity type exclude,
       ∃ req, http_calls (trace (CardsAPI_random session_request self count rarity type
                                   exclude w).2)
              = http_calls (trace w) ++ [req]
              ∧ optional_params_truthy ["count"] req)
  ∧ (∀ user_id rarity sort_by sort_order page page_size,
       ∃ req, http_calls (trace (CollectionsAPI_get session_request self user_id rarity
                                   sort_by sort_order page page_size w).2)
              = http_calls (trace w) ++ [req]
              ∧ optional_params_truthy ["sortBy"; "sortOrder"; "page"; "pageSize"] req)
  ∧ (∀ status,
       ∃ req, http_calls (trace (EventsAPI_list session_request self status w).2)
              = http_calls (trace w) ++ [req]
              ∧ optional_params_truthy [] req).
Proof.
  repeat split; intros; (eexists; split; [apply _request_http_calls|]);
    intros params key v [= <-] Hv;
    repeat (apply lookup_set_if_truthy_Some in Hv as [[-> ?]|Hv]; [by right|]);
    repeat (apply lookup_insert_Some in Hv as [[<- _]|[_ Hv]];
            [left; set_unfold; tauto|]);
    by rewrite lookup_empty in Hv.
Qed.

(** The JSON bodies: [CardsAPI.random] sends a body, holding [exclude] alone,
    exactly when [exclude] is truthy; [PacksAPI.generate] always sends
    [packType] and [count] and adds [design] and [series] exactly when truthy;
    [AuthAPI.create_key] always sends [name] and the tier's value and adds
    [expiresAt] exactly when an expiry is given and [allowedOrigins] exactly
    when the list of origins is not empty.  Neither [generate] nor
    [create_key] sends query parameters. *)
Theorem request_bodies (w : World Env) :
  (∀ count rarity type exclude,
     ∃ params,
       http_calls (trace (CardsAPI_random session_request self count rarity type exclude
                            w).2)
       = http_calls (trace w)
         ++ [mkRequest "POST" (base_url self +:+ "/cards/random") (Some params)
               (if truthy exclude then Some (JObj [("exclude", exclude)]) else None)
               (timeout self)])
  ∧ (∀ pack_type count design series,
       ∃ members,
         http_calls (trace (PacksAPI_generate session_request self pack_type count design
                              series w).2)
         = http_calls (trace w)
           ++ [mkRequest "POST" (base_url self +:+ "/packs/generate") None
                 (Some (JObj members)) (timeout self)]
         ∧ assoc_get "packType" members = Some pack_type
         ∧ assoc_get "count" members = Some count
         ∧ assoc_get "design" members = (if truthy design then Some design else None)
         ∧ assoc_get "series" members = (if truthy series then Some series else None))
  ∧ (∀ name tier expires_at allowed_origins,
       ∃ members,
         http_calls (trace (AuthAPI_create_key session_request isoformat self name tier
                              expires_at allowed_origins w).2)
         = http_calls (trace w)
           ++ [mkRequest "POST" (base_url self +:+ "/auth/keys") None
                 (Some (JObj members)) (timeout self)]
         ∧ assoc_get "name" members = Some (JStr name)
         ∧ assoc_get "tier" members = Some (JStr (ApiTier_value tier))
         ∧ ApiTier_value tier ∈ ["free"; "basic"; "pro"; "enterprise"]
         ∧ assoc_get "expiresAt" members = (λ dt, JStr (isoformat dt)) <$> expires_at
         ∧ assoc_get "allowedOrigins" members
           = match allowed_origins with
             | Some (o :: os) => Some (JArr (JStr <$> o :: os))
             | _ => None
             end).
Proof.
  split; [|split].
  - intros. eexists. apply _request_http_calls.
  - intros. eexists. split; [apply _request_http_calls|].
    repeat split; rewrite ?assoc_get_add_if_truthy; simpl;
      by repeat match goal with |- context [truthy ?v] => destruct (truthy v) end.
  - intros name t expires_at allowed_origins.
    eexists. split; [apply _request_http_calls|].
    split; [|split; [|split; [|split]]].
    + by destruct expires_at as [dt|], allowed_origins as [[|o os]|].
    + by destruct expires_at as [dt|], allowed_origins as [[|o os]|].
    + destruct t; simpl; set_solver.
    + by destruct expires_at as [dt|], allowed_origins as [[|o os]|].
    + by destruct expires_at as [dt|], allowed_origins as [[|o os]|].
Qed.


End EndpointArguments.

(** ** The URL of a request *)

Lemma string_app_cons (a : ascii) (s t : string) : String a s +:+ t = String a (s +:+ t).
Proof. done. Qed.

Lemma string_app_assoc (s1 s2 s3 : string) : (s1 +:+ s2) +:+ s3 = s1 +:+ (s2 +:+ s3).
Proof. induction s1 as [|a s1 IH]; [done|]. by rewrite !string_app_cons, IH. Qed.

Lemma string_app_nil_r (s : string) : s +:+ "" = s.
Proof. induction s as [|a s IH]; [done|]. by rewrite string_app_cons, IH. Qed.

Lemma string_rev_app_spec (s t : string) : String.rev_app s t = String.rev s +:+ t.
Proof.
  unfold String.rev. revert t.
  induction s as [|a s IH]; intros t; [done|]. simpl.
  rewrite (IH (String a t)), (IH (String a "")). by rewrite string_app_assoc.
Qed.

Lemma string_rev_cons (a : ascii) (s : string) :
  String.rev (String a s) = String.rev s +:+ String a "".
Proof. unfold String.rev at 1. simpl. apply string_rev_app_spec. Qed.

Lemma string_rev_app (s t : string) : String.rev (s +:+ t) = String.rev t +:+ String.rev s.
Proof.
  induction s as [|a s IH].
  - change (String.rev t = String.rev t +:+ ""). by rewrite string_app_nil_r.
  - by rewrite string_app_cons, !string_rev_cons, IH, string_app_assoc.
Qed.

Lemma string_rev_involutive (s : string) : String.rev (String.rev s) = s.
Proof.
  induction s as [|a s IH]; [done|].
  by rewrite string_rev_cons, string_rev_app, IH.
Qed.

Lemma slashes_snoc (n : nat) : slashes n +:+ "/" = slashes (S n).
Proof. induction n as [|n IH]; [done|]. simpl. by rewrite string_app_cons, IH. Qed.

Lemma string_rev_slashes (n : nat) : String.rev (slashes n) = slashes n.
Proof.
  induction n as [|n IH]; [done|].
  change (slashes (S n)) with (String "/" (slashes n)) at 1.
  by rewrite string_rev_cons, IH, slashes_snoc.
Qed.

(** What [lstrip("/")] removes is a run of slashes, and what it leaves does
    not begin with one. *)
Lemma lstrip_slash_spec (s : string) :
  (∃ n, s = slashes n +:+ lstrip_slash s) ∧ ∀ t, lstrip_slash s ≠ String "/" t.
Proof.
  induction s as [|a s [[n IHn] IH]]; [split; [by exists 0%nat|done]|].
  simpl. destruct (Ascii.eqb_spec a "/") as [->|Hne].
  - split; [|done]. exists (S n). simpl. by rewrite string_app_cons, <- IHn.
  - split; [by exists 0%nat|]. intros t [= ? _]. done.
Qed.

(** Likewise for [rstrip("/")] at the end. *)
Lemma rstrip_slash_spec (s : string) :
  (∃ n, s = rstrip_slash s +:+ slashes n) ∧ ∀ t, rstrip_slash s ≠ t +:+ "/".
Proof.
  unfold rstrip_slash.
  destruct (lstrip_slash_spec (String.rev s)) as [[n Hn] Hnot]. split.
  - exists n. apply (f_equal String.rev) in Hn.
    by rewrite string_rev_involutive, string_rev_app, string_rev_slashes in Hn.
  - intros t Ht. apply (f_equal String.rev) in Ht.
    rewrite string_rev_involutive, string_rev_app in Ht.
    change (String.rev "/" +:+ String.rev t) with (String "/" (String.rev t)) in Ht.
    by eapply Hnot.
Qed.

(** The URL [_request] asks for joins the base URL and the endpoint with
    exactly one slash: a client built by [__init__] holds the base without
    its trailing slashes, and [_request] drops the leading slashes of the
    endpoint, so that however many slashes the caller wrote at the joint the
    same URL is requested. *)
Theorem request_url_joins_with_one_slash {Env : Type}
    (session_request : http_request -> Env -> result Response * Env)
    (key base : string) (seconds : Z) (method endpoint : string)
    (params : option (gmap string json)) (body : option json) (w : World Env) :
  let self := DadDeckAPI_init key base seconds in
  ∃ host path n m,
    http_calls (trace (_request session_request self method endpoint params body w).2)
    = http_calls (trace w)
      ++ [mkRequest method (host +:+ "/" +:+ path) params body seconds]
    ∧ base = host +:+ slashes n
    ∧ endpoint = slashes m +:+ path
    ∧ (∀ t, host ≠ t +:+ "/")
    ∧ (∀ t, path ≠ "/" +:+ t).
Proof.
  intros self.
  destruct (rstrip_slash_spec base) as [[n Hn] Hhost].
  destruct (lstrip_slash_spec endpoint) as [[m Hm] Hpath].
  exists (rstrip_slash base), (lstrip_slash endpoint), n, m.
  split; [apply _request_http_calls|]. by repeat split.
Qed.

(** ** The pagination helper: a failing page *)

Section PaginationFailure.

Context {Env : Type}.
Variable cards_list : gmap string json -> M Env ApiResponse.
Variable filters : option (gmap string json).
Variable items : Z -> list json.
Variable last : Z.
Variable x : exn.
Hypothesis Hserves : serves_pages_before last cards_list items.
Hypothesis Hfails : ∀ kwargs w, kwargs !! "page" = Some (JInt last) →
  ∃ w', cards_list kwargs w = (Raise x, w').

Local Abbreviation loop := (get_all_cards_loop cards_list filters).

Lemma get_all_cards_loop_before fuel acc p w :
  p < last → ∃ w', loop (S fuel) acc p w = loop fuel (acc ++ items p) (p + 1) w'.
Proof.
  intros Hp.
  destruct (Hserves (page_kwargs filters p) (emit (EvList (page_kwargs filters p)) w) p)
    as (resp & w' & pagination & h & Hcall & Hcards & Hpag & Hh & Htruthy);
    [done|apply page_kwargs_page|].
  exists w'. cbn [get_all_cards_loop]. fold (page_kwargs filters p). rewrite Hcall.
  rewrite Hcards. simpl. rewrite Hpag. simpl. rewrite Hh. simpl. by rewrite Htruthy.
Qed.

Lemma get_all_cards_loop_fails (k : nat) : ∀ fuel acc p w,
  p + Z.of_nat k = last →
  (fuel <= k → loop fuel acc p w = None)%nat
  ∧ (k < fuel → ∃ w', loop fuel acc p w = Some (Raise x, w'))%nat.
Proof.
  induction k as [|k IH]; intros fuel acc p w Hlast.
  - split; intros Hfuel.
    + by replace fuel with 0%nat by lia.
    + destruct fuel as [|fuel]; [lia|].
      destruct (Hfails (page_kwargs filters p) (emit (EvList (page_kwargs filters p)) w))
        as [w' Hcall]; [replace p with last by lia; apply page_kwargs_page|].
      exists w'. cbn [get_all_cards_loop]. fold (page_kwargs filters p). by rewrite Hcall.
  - destruct fuel as [|fuel]; [split; [done|lia]|].
    destruct (get_all_cards_loop_before fuel acc p w) as [w1 ->]; [lia|].
    destruct (IH fuel (acc ++ items p) (p + 1) w1) as [Hnone Hsome]; [lia|].
    split; intros Hfuel; [apply Hnone|apply Hsome]; lia.
Qed.

End PaginationFailure.

(** A page that fails aborts the aggregation: when the pages before page
    [last] are served, each announcing a next one, and the call for page
    [last] raises, [get_all_cards] raises that exception once it has asked for
    page [last] and returns none of the cards it had collected. *)
Theorem get_all_cards_failing_page_raises {Env : Type}
    (cards_list : gmap string json -> M Env ApiResponse)
    (filters : option (gmap string json)) (items : Z -> list json) (last : Z) (x : exn)
    (fuel : nat) (w : World Env) :
  serves_pages_before last cards_list items →
  (∀ kwargs w, kwargs !! "page" = Some (JInt last) →
     ∃ w', cards_list kwargs w = (Raise x, w')) →
  1 <= last →
  (Z.of_nat fuel < last → get_all_cards cards_list filters fuel w = None)
  ∧ (last <= Z.of_nat fuel →
     ∃ w', get_all_cards cards_list filters fuel w = Some (Raise x, w')).
Proof.
  intros Hserves Hfails Hlast. unfold get_all_cards.
  destruct (get_all_cards_loop_fails cards_list filters items last x Hserves Hfails
              (Z.to_nat (last - 1)) fuel [] 1 w) as [Hnone Hsome]; [lia|].
  split; intros Hfuel; [apply Hnone|apply Hsome]; lia.
Qed.

Lemma get_all_cards_failing_page_raises_witness :
  serves_pages_before 3
    (paged_list_failing (Env:=()) endless_pages 3 (APIErrorExc rate_limited_error))
    (λ p, [card p])
  ∧ 1 <= 3
  ∧ 3 <= Z.of_nat 5
  ∧ ∃ w', get_all_cards
            (paged_list_failing endless_pages 3 (APIErrorExc rate_limited_error))
            None 5 blank
          = Some (Raise (APIErrorExc rate_limited_error), w').
Proof.
  assert (Hserves : serves_pages_before 3
            (paged_list_failing (Env:=()) endless_pages 3 (APIErrorExc rate_limited_error))
            (λ p, [card p])).
  { intros kwargs w p Hp Hpage. unfold paged_list_failing, paged_list. rewrite Hpage.
    destruct (Z.ltb_spec p 3); [|lia]. by eexists _, w, _, _. }
  assert (Hfails : ∀ kwargs (w : World ()), kwargs !! "page" = Some (JInt 3) →
            ∃ w', paged_list_failing endless_pages 3 (APIErrorExc rate_limited_error)
                    kwargs w = (Raise (APIErrorExc rate_limited_error), w')).
  { intros kwargs w Hpage. exists w. unfold paged_list_failing. by rewrite Hpage. }
  split; [exact Hserves|]. split; [lia|]. split; [lia|].
  exact (proj2 (get_all_cards_failing_page_raises _ None _ 3 _ 5 blank Hserves Hfails
                  ltac:(lia)) ltac:(lia)).
Defined.
